(** * LOCI wire buffers ([loci/of_wire_buf.h])

    A shallow embedding of the wire-buffer header of the LOCI OpenFlow
    codec: the buffer management structure, its constructors and
    destructor, the bounds-checked big-endian scalar accessors, the
    version-dependent field accessors, the byte-run accessors and the
    relocation helper.

    The C code works on heap objects through pointers, asserts its
    contracts with [LOCI_ASSERT], and returns results through out-parameters.
    The embedding threads an explicit memory through every function and
    distinguishes three ways a call can end: it returns, it stops at a failed
    assertion (the memory at that point is kept, so that what was written
    before the stop can be observed), or it performs an access that C leaves
    undefined. *)

From Stdlib Require Import ZArith List Lia.
From stdpp Require Import base option list gmap fin_maps.

Local Open Scope Z_scope.

(** ** Memory *)

(** Base addresses of heap objects; [NULL] is [None]. *)
Definition addr := positive.
Definition pointer := option addr.
Definition NULL : pointer := None.

(** A pointer to a byte inside a block: [&block[index]]. *)
Definition byte_ptr : Type := addr * Z.

(** [of_buffer_free_f]: a pointer to a release function supplied by the
    caller, identified by its name. *)
Definition of_buffer_free_f := option positive.

(** [struct of_wire_buffer_s]. An [int] is an integer: the functions of the
    header only add a width to an offset or subtract two offsets, and a run
    in which such a result leaves the range of [int] is undefined in C and
    outside the embedding. *)
Record of_wire_buffer_t : Type := Build_wbuf {
  buf : pointer;                (* uint8_t *buf *)
  alloc_bytes : Z;              (* length of buffer actually allocated *)
  current_bytes : Z;            (* current extent actually used *)
  free : of_buffer_free_f       (* if not NULL, use this to dealloc buf *)
}.

(** What lives at an address: a run of bytes (each a [Z] in [0, 256)) or a
    buffer management structure. *)
Inductive object : Type :=
| Bytes (bs : list Z)
| WBuf (w : of_wire_buffer_t).

(** The memory: the live heap objects, and the calls made so far to
    caller-supplied release functions (function, argument), latest first. *)
Record mem : Type := Build_mem {
  heap : gmap addr object;
  released : list (positive * addr)
}.

Definition with_heap (m : mem) (h : gmap addr object) : mem :=
  {| heap := h; released := released m |}.

(** ** Outcomes and the monad of the embedding *)

Inductive outcome (A : Type) : Type :=
| Done (a : A) (m : mem)     (* the call returned [a], leaving memory [m] *)
| Abort (m : mem)            (* a [LOCI_ASSERT] failed; [m] is the memory then *)
| Fault.                     (* undefined behaviour: invalid access or free *)
Arguments Done {A} a m.
Arguments Abort {A} m.
Arguments Fault {A}.

Definition M (A : Type) : Type := mem → outcome A.

#[global] Instance M_ret : MRet M := λ A a m, Done a m.
#[global] Instance M_bind : MBind M := λ A B f c m,
  match c m with
  | Done a m' => f a m'
  | Abort m' => Abort m'
  | Fault => Fault
  end.

Definition fault {A} : M A := λ _, Fault.

(** Modelled from the spec: [LOCI_ASSERT] (of loci_base.h) is missing; a
    violated contract "aborts immediately, with no partial write and no
    propagated error code". *)
Definition LOCI_ASSERT (cond : bool) : M unit :=
  λ m, if cond then Done () m else Abort m.

(** ** Primitive accesses *)

(** Reading the structure behind [wbuf]; a null or dangling pointer is an
    invalid access. *)
Definition load_wbuf (wbuf : pointer) : M of_wire_buffer_t := λ m,
  match wbuf with
  | Some p => match heap m !! p with
              | Some (WBuf w) => Done w m
              | _ => Fault
              end
  | None => Fault
  end.

Definition store_wbuf (wbuf : pointer) (w : of_wire_buffer_t) : M unit := λ m,
  match wbuf with
  | Some p => match heap m !! p with
              | Some (WBuf _) => Done () (with_heap m (<[p := WBuf w]> (heap m)))
              | _ => Fault
              end
  | None => Fault
  end.

(** Whether the [n] bytes at index [i] lie inside a block of length [len]. *)
Definition in_block (len : nat) (i n : Z) : bool :=
  (0 <=? i) && (0 <=? n) && (i + n <=? Z.of_nat len).

Definition load_bytes (p : byte_ptr) (n : Z) : M (list Z) := λ m,
  match heap m !! p.1 with
  | Some (Bytes bs) =>
      if in_block (length bs) p.2 n
      then Done (take (Z.to_nat n) (drop (Z.to_nat p.2) bs)) m
      else Fault
  | _ => Fault
  end.

Definition splice_bytes (bs : list Z) (i : Z) (data : list Z) : list Z :=
  take (Z.to_nat i) bs ++ data ++ drop (Z.to_nat i + length data) bs.

Definition store_bytes (p : byte_ptr) (data : list Z) : M unit := λ m,
  match heap m !! p.1 with
  | Some (Bytes bs) =>
      if in_block (length bs) p.2 (Z.of_nat (length data))
      then Done () (with_heap m (<[p.1 := Bytes (splice_bytes bs p.2 data)]> (heap m)))
      else Fault
  | _ => Fault
  end.

(** ** The allocator and the block primitives

    [MALLOC], [FREE], [MEMSET] and [MEMMOVE] are macros of loci_base.h, which
    is not part of the header; they stand for the C library functions. *)

(** Modelled from the spec: the allocator behind [MALLOC] is missing
    ("fails with AllocationError if memory cannot be obtained"). It is a
    parameter: where a request is placed (or that it is refused), and what an
    uninitialised object holds. The only thing known about it is that a
    granted address is not in use. *)
Class Allocator : Type := {
  malloc_pick : gmap addr object → Z → option addr;
  malloc_pick_fresh : ∀ h n a, malloc_pick h n = Some a → h !! a = None;
  uninit_bytes : nat → list Z;
  uninit_bytes_length : ∀ n, length (uninit_bytes n) = n;
  uninit_wbuf : of_wire_buffer_t
}.

(** [sizeof(of_wire_buffer_t)] on an LP64 target. *)
Definition sizeof_of_wire_buffer_t : Z := 24.
Definition sizeof_uint8_t : Z := 1.
Definition sizeof_uint16_t : Z := 2.
Definition sizeof_uint32_t : Z := 4.
Definition sizeof_uint64_t : Z := 8.

Section Alloc.
Context `{Allocator}.

(** [(uint8_t * )MALLOC(n)]: [NULL] when the request is refused. An [int]
    below zero converts to a size no allocator grants. *)
Definition MALLOC (n : Z) : M pointer := λ m,
  if n <? 0 then Done NULL m else
  match malloc_pick (heap m) n with
  | Some a => Done (Some a)
                (with_heap m (<[a := Bytes (uninit_bytes (Z.to_nat n))]> (heap m)))
  | None => Done NULL m
  end.

(** [(of_wire_buffer_t * )MALLOC(sizeof(of_wire_buffer_t))]. *)
Definition MALLOC_wbuf : M pointer := λ m,
  match malloc_pick (heap m) sizeof_of_wire_buffer_t with
  | Some a => Done (Some a) (with_heap m (<[a := WBuf uninit_wbuf]> (heap m)))
  | None => Done NULL m
  end.
End Alloc.

(** Modelled from the spec: [FREE] is missing; it is the "default free".
    It releases a live object; anything else is undefined. *)
Definition FREE (p : pointer) : M unit := λ m,
  match p with
  | Some a => match heap m !! a with
              | Some _ => Done () (with_heap m (delete a (heap m)))
              | None => Fault
              end
  | None => Done () m
  end.

(** [wbuf->free(wbuf->buf)]: control passes to the caller's release
    function; the call is recorded, and what the function does with its
    memory is its own business, not the library's. *)
Definition call_free (f : positive) (p : pointer) : M unit := λ m,
  match p with
  | Some a => Done () {| heap := heap m; released := (f, a) :: released m |}
  | None => Fault
  end.

(** The structure with all bits zero. *)
Definition zero_wbuf : of_wire_buffer_t :=
  {| buf := NULL; alloc_bytes := 0; current_bytes := 0; free := None |}.

(** Modelled from the spec: [MEMSET] is missing ("zero-initialized").
    [MEMSET(wbuf, 0, sizeof(of_wire_buffer_t))] on a structure. *)
Definition MEMSET_wbuf (wbuf : pointer) : M unit := store_wbuf wbuf zero_wbuf.

(** Modelled from the spec: [MEMSET] is missing. [MEMSET(p, c, n)] on a run
    of bytes. *)
Definition MEMSET (p : byte_ptr) (c : Z) (n : Z) : M unit :=
  store_bytes p (replicate (Z.to_nat n) (Z.land c 255)).

(** Modelled from the spec: [MEMMOVE] is missing; "an overlap-safe block
    move, not a naive non-overlapping copy". The source is read whole before
    the destination is written. *)
Definition MEMMOVE (dst src : byte_ptr) (n : Z) : M unit :=
  data ← load_bytes src n; store_bytes dst data.

(** Assignments to the fields of [*wbuf]. *)
Definition set_buf (wbuf : pointer) (v : pointer) : M unit :=
  w ← load_wbuf wbuf;
  store_wbuf wbuf {| buf := v; alloc_bytes := alloc_bytes w;
                     current_bytes := current_bytes w; free := free w |}.

Definition set_alloc_bytes (wbuf : pointer) (v : Z) : M unit :=
  w ← load_wbuf wbuf;
  store_wbuf wbuf {| buf := buf w; alloc_bytes := v;
                     current_bytes := current_bytes w; free := free w |}.

Definition set_current_bytes (wbuf : pointer) (v : Z) : M unit :=
  w ← load_wbuf wbuf;
  store_wbuf wbuf {| buf := buf w; alloc_bytes := alloc_bytes w;
                     current_bytes := v; free := free w |}.

Definition set_free (wbuf : pointer) (v : of_buffer_free_f) : M unit :=
  w ← load_wbuf wbuf;
  store_wbuf wbuf {| buf := buf w; alloc_bytes := alloc_bytes w;
                     current_bytes := current_bytes w; free := v |}.

(** ** Big-endian scalars

    The accessors [buf_u8_get] ... [buf_u64_set], [buf_octets_get] and
    [buf_octets_set] of loci/of_buffer.h are not part of the header. *)

(** Modelled from the spec: the byte order of the missing [buf_*] accessors.
    "Multi-byte values use one fixed byte order (network/big-endian)
    independent of host byte order." The [n] bytes of [v], most significant
    first. *)
Fixpoint be_bytes (n : nat) (v : Z) : list Z :=
  match n with
  | O => []
  | S n' => Z.land (Z.shiftr v (8 * Z.of_nat n')) 255 :: be_bytes n' v
  end.

(** Modelled from the spec: the value of a run of bytes, most significant
    first. *)
Definition be_value (bs : list Z) : Z :=
  fold_left (λ acc b, Z.lor (Z.shiftl acc 8) b) bs 0.

(** Modelled from the spec: the missing [buf_uN_get], [buf_uN_set], for a
    scalar of [width] bytes. *)
Definition buf_get (width : Z) (p : byte_ptr) : M Z :=
  bs ← load_bytes p width; mret (be_value bs).

Definition buf_set (width : Z) (p : byte_ptr) (value : Z) : M unit :=
  store_bytes p (be_bytes (Z.to_nat width) value).

Definition buf_u8_get := buf_get sizeof_uint8_t.
Definition buf_u16_get := buf_get sizeof_uint16_t.
Definition buf_u32_get := buf_get sizeof_uint32_t.
Definition buf_u64_get := buf_get sizeof_uint64_t.
Definition buf_u8_set := buf_set sizeof_uint8_t.
Definition buf_u16_set := buf_set sizeof_uint16_t.
Definition buf_u32_set := buf_set sizeof_uint32_t.
Definition buf_u64_set := buf_set sizeof_uint64_t.

(** Modelled from the spec: the missing byte-run copies. "Byte-run copy
    moves exactly the caller-specified number of bytes in each direction."
    [buf_octets_get(buf, dst, n)] copies out of the wire buffer,
    [buf_octets_set(buf, src, n)] copies into it. *)
Definition buf_octets_get (p : byte_ptr) (dst : byte_ptr) (n : Z) : M unit :=
  data ← load_bytes p n; store_bytes dst data.

Definition buf_octets_set (p : byte_ptr) (src : byte_ptr) (n : Z) : M unit :=
  data ← load_bytes src n; store_bytes p data.

(** ** The header *)

Definition WBUF_BUF (w : of_wire_buffer_t) : pointer := buf w.
Definition WBUF_ALLOC_BYTES (w : of_wire_buffer_t) : Z := alloc_bytes w.
Definition WBUF_CURRENT_BYTES (w : of_wire_buffer_t) : Z := current_bytes w.

Definition is_null (p : pointer) : bool :=
  match p with Some _ => false | None => true end.

(** [OF_WIRE_BUFFER_ACCESS_CHECK(wbuf, offset)]: [offset] is the extent of
    the buffer required. The conjunction is evaluated left to right, so
    [wbuf] is dereferenced only when it is not [NULL]. *)
Definition OF_WIRE_BUFFER_ACCESS_CHECK (wbuf : pointer) (offset : Z) : M unit :=
  if is_null wbuf then LOCI_ASSERT false else
  w ← load_wbuf wbuf;
  LOCI_ASSERT (negb (is_null (WBUF_BUF w)) &&
               (0 <? offset) && (offset <=? WBUF_CURRENT_BYTES w)).

(** [OF_WIRE_BUFFER_INDEX(wbuf, offset)]: [&((wbuf)->buf[offset])]. *)
Definition OF_WIRE_BUFFER_INDEX (wbuf : pointer) (offset : Z) : M byte_ptr :=
  w ← load_wbuf wbuf;
  match WBUF_BUF w with
  | Some b => mret (b, offset)
  | None => fault
  end.

Definition OF_WIRE_BUFFER_MAX_LENGTH : Z := 65535.
Definition OF_WIRE_BUFFER_MIN_ALLOC_BYTES : Z := 128.

Section Constructors.
Context `{Allocator}.

Definition of_wire_buffer_new (a_bytes : Z) : M pointer :=
  wbuf ← MALLOC_wbuf;
  if is_null wbuf then mret NULL else
  MEMSET_wbuf wbuf;;
  let a_bytes :=
    if a_bytes <? OF_WIRE_BUFFER_MIN_ALLOC_BYTES
    then OF_WIRE_BUFFER_MIN_ALLOC_BYTES else a_bytes in
  b ← MALLOC a_bytes;
  set_buf wbuf b;;
  match b with
  | None => FREE wbuf;; mret NULL
  | Some b' =>
      MEMSET (b', 0) 0 a_bytes;;
      set_current_bytes wbuf 0;;
      set_alloc_bytes wbuf a_bytes;;
      mret wbuf
  end.

Definition of_wire_buffer_new_bind (buf : pointer) (bytes : Z)
    (buf_free : of_buffer_free_f) : M pointer :=
  wbuf ← MALLOC_wbuf;
  if is_null wbuf then mret NULL else
  set_buf wbuf buf;;
  set_free wbuf buf_free;;
  set_current_bytes wbuf bytes;;
  set_alloc_bytes wbuf bytes;;
  mret wbuf.
End Constructors.

Definition of_wire_buffer_free (wbuf : pointer) : M unit :=
  if is_null wbuf then mret () else
  w ← load_wbuf wbuf;
  (if negb (is_null (buf w)) then
     match free w with
     | Some f => call_free f (buf w)
     | None => FREE (buf w)
     end
   else mret ());;
  FREE wbuf.

(** [*buffer] is the returned pointer. *)
Definition of_wire_buffer_steal (wbuf : pointer) : M pointer :=
  w ← load_wbuf wbuf;
  let buffer := buf w in
  set_buf wbuf NULL;;
  of_wire_buffer_free wbuf;;
  mret buffer.

Definition of_wire_buffer_grow (wbuf : pointer) (bytes : Z) : M unit :=
  LOCI_ASSERT (negb (is_null wbuf));;
  w ← load_wbuf wbuf;
  LOCI_ASSERT (bytes <=? alloc_bytes w);;
  if current_bytes w <? bytes then set_current_bytes wbuf bytes else mret ().

(** *** Scalars

    A getter returns the value it stores into [*value]; the store is the
    last thing it does, so a call that does not return has not written its
    out-parameter. *)

Definition of_wire_buffer_u8_get (wbuf : pointer) (offset : Z) : M Z :=
  OF_WIRE_BUFFER_ACCESS_CHECK wbuf (offset + sizeof_uint8_t);;
  p ← OF_WIRE_BUFFER_INDEX wbuf offset; buf_u8_get p.

Definition of_wire_buffer_u8_set (wbuf : pointer) (offset : Z) (value : Z) : M unit :=
  OF_WIRE_BUFFER_ACCESS_CHECK wbuf (offset + sizeof_uint8_t);;
  p ← OF_WIRE_BUFFER_INDEX wbuf offset; buf_u8_set p value.

Definition of_wire_buffer_u16_get (wbuf : pointer) (offset : Z) : M Z :=
  OF_WIRE_BUFFER_ACCESS_CHECK wbuf (offset + sizeof_uint16_t);;
  p ← OF_WIRE_BUFFER_INDEX wbuf offset; buf_u16_get p.

Definition of_wire_buffer_u16_set (wbuf : pointer) (offset : Z) (value : Z) : M unit :=
  OF_WIRE_BUFFER_ACCESS_CHECK wbuf (offset + sizeof_uint16_t);;
  p ← OF_WIRE_BUFFER_INDEX wbuf offset; buf_u16_set p value.

Definition of_wire_buffer_u32_get (wbuf : pointer) (offset : Z) : M Z :=
  OF_WIRE_BUFFER_ACCESS_CHECK wbuf (offset + sizeof_uint32_t);;
  p ← OF_WIRE_BUFFER_INDEX wbuf offset; buf_u32_get p.

Definition of_wire_buffer_u32_set (wbuf : pointer) (offset : Z) (value : Z) : M unit :=
  OF_WIRE_BUFFER_ACCESS_CHECK wbuf (offset + sizeof_uint32_t);;
  p ← OF_WIRE_BUFFER_INDEX wbuf offset; buf_u32_set p value.

Definition of_wire_buffer_ipv4_get := of_wire_buffer_u32_get.
Definition of_wire_buffer_ipv4_set := of_wire_buffer_u32_set.

Definition of_wire_buffer_u64_get (wbuf : pointer) (offset : Z) : M Z :=
  OF_WIRE_BUFFER_ACCESS_CHECK wbuf (offset + sizeof_uint64_t);;
  p ← OF_WIRE_BUFFER_INDEX wbuf offset; buf_u64_get p.

Definition of_wire_buffer_u64_set (wbuf : pointer) (offset : Z) (value : Z) : M unit :=
  OF_WIRE_BUFFER_ACCESS_CHECK wbuf (offset + sizeof_uint64_t);;
  p ← OF_WIRE_BUFFER_INDEX wbuf offset; buf_u64_set p value.

(** [LOCI_ASSERT(0)]: never passes, so nothing after it is run; used where
    the C function has no value to return. *)
Definition LOCI_ASSERT_0 {A} : M A := λ m, Abort m.

(** *** Version-dependent fields *)

(** Modelled from the spec: the wire version tags and the in-memory types of
    loci_base.h are missing. The four versions are numbered 1 to 4 ("16-bit
    in version 1, 32-bit in versions 2-4"), and the caller-facing type of a
    field is its widest wire form ("widen/narrow to/from a canonical widest
    in-memory representation"): [of_port_no_t] is 32 bits wide,
    [of_fm_cmd_t] 16 bits, [of_wc_bmap_t] 64 bits. *)
Definition OF_VERSION_1_0 : Z := 1.
Definition OF_VERSION_1_1 : Z := 2.
Definition OF_VERSION_1_2 : Z := 3.
Definition OF_VERSION_1_3 : Z := 4.

(** The casts [(uint8_t)value] ... [(uint64_t)value]: reduction modulo
    [2^bits]. *)
Definition to_uint8 (v : Z) : Z := Z.land v (Z.ones 8).
Definition to_uint16 (v : Z) : Z := Z.land v (Z.ones 16).
Definition to_uint32 (v : Z) : Z := Z.land v (Z.ones 32).
Definition to_uint64 (v : Z) : Z := Z.land v (Z.ones 64).

Definition of_wire_buffer_port_no_get (version : Z) (wbuf : pointer) (offset : Z) : M Z :=
  if version =? OF_VERSION_1_0 then
    v16 ← of_wire_buffer_u16_get wbuf offset; mret v16
  else if (version =? OF_VERSION_1_1) || (version =? OF_VERSION_1_2)
          || (version =? OF_VERSION_1_3) then
    v32 ← of_wire_buffer_u32_get wbuf offset; mret v32
  else LOCI_ASSERT_0.

Definition of_wire_buffer_port_no_set (version : Z) (wbuf : pointer) (offset : Z)
    (value : Z) : M unit :=
  if version =? OF_VERSION_1_0 then
    of_wire_buffer_u16_set wbuf offset (to_uint16 value)
  else if (version =? OF_VERSION_1_1) || (version =? OF_VERSION_1_2)
          || (version =? OF_VERSION_1_3) then
    of_wire_buffer_u32_set wbuf offset (to_uint32 value)
  else LOCI_ASSERT false.

Definition of_wire_buffer_fm_cmd_get (version : Z) (wbuf : pointer) (offset : Z) : M Z :=
  if version =? OF_VERSION_1_0 then
    v16 ← of_wire_buffer_u16_get wbuf offset; mret v16
  else if (version =? OF_VERSION_1_1) || (version =? OF_VERSION_1_2)
          || (version =? OF_VERSION_1_3) then
    v8 ← of_wire_buffer_u8_get wbuf offset; mret v8
  else LOCI_ASSERT_0.

Definition of_wire_buffer_fm_cmd_set (version : Z) (wbuf : pointer) (offset : Z)
    (value : Z) : M unit :=
  if version =? OF_VERSION_1_0 then
    of_wire_buffer_u16_set wbuf offset (to_uint16 value)
  else if (version =? OF_VERSION_1_1) || (version =? OF_VERSION_1_2)
          || (version =? OF_VERSION_1_3) then
    of_wire_buffer_u8_set wbuf offset (to_uint8 value)
  else LOCI_ASSERT false.

Definition of_wire_buffer_wc_bmap_get (version : Z) (wbuf : pointer) (offset : Z) : M Z :=
  if (version =? OF_VERSION_1_0) || (version =? OF_VERSION_1_1) then
    v32 ← of_wire_buffer_u32_get wbuf offset; mret v32
  else if (version =? OF_VERSION_1_2) || (version =? OF_VERSION_1_3) then
    v64 ← of_wire_buffer_u64_get wbuf offset; mret v64
  else LOCI_ASSERT_0.

Definition of_wire_buffer_wc_bmap_set (version : Z) (wbuf : pointer) (offset : Z)
    (value : Z) : M unit :=
  if (version =? OF_VERSION_1_0) || (version =? OF_VERSION_1_1) then
    of_wire_buffer_u32_set wbuf offset (to_uint32 value)
  else if (version =? OF_VERSION_1_2) || (version =? OF_VERSION_1_3) then
    of_wire_buffer_u64_set wbuf offset (to_uint64 value)
  else LOCI_ASSERT false.

Definition of_wire_buffer_match_bmap_get := of_wire_buffer_wc_bmap_get.
Definition of_wire_buffer_match_bmap_set := of_wire_buffer_wc_bmap_set.
Definition of_wire_buffer_char_get := of_wire_buffer_u8_get.
Definition of_wire_buffer_char_set := of_wire_buffer_u8_set.

(** *** Byte runs *)

(** Modelled from the spec: [of_octets_t] and its accessor macros (of
    loci_base.h) are missing: a pointer to the caller's bytes and the
    "caller-specified number of bytes". *)
Record of_octets_t : Type := Build_octets {
  data : pointer;
  bytes : Z
}.
Definition OF_OCTETS_POINTER_GET (value : of_octets_t) : pointer := data value.
Definition OF_OCTETS_BYTES_GET (value : of_octets_t) : Z := bytes value.

(** The caller's pointer as a pointer to the first byte of its block. *)
Definition first_byte (p : pointer) : M byte_ptr :=
  match p with Some a => mret (a, 0) | None => fault end.

Definition of_wire_buffer_octets_data_get (wbuf : pointer) (offset : Z)
    (value : of_octets_t) : M unit :=
  OF_WIRE_BUFFER_ACCESS_CHECK wbuf (offset + OF_OCTETS_BYTES_GET value);;
  p ← OF_WIRE_BUFFER_INDEX wbuf offset;
  dst ← first_byte (OF_OCTETS_POINTER_GET value);
  buf_octets_get p dst (OF_OCTETS_BYTES_GET value).

Definition of_wire_buffer_octets_data_set (wbuf : pointer) (offset : Z)
    (value : of_octets_t) (cur_len : Z) : M unit :=
  LOCI_ASSERT ((cur_len =? 0) || (cur_len =? bytes value));;
  OF_WIRE_BUFFER_ACCESS_CHECK wbuf (offset + OF_OCTETS_BYTES_GET value);;
  p ← OF_WIRE_BUFFER_INDEX wbuf offset;
  src ← first_byte (OF_OCTETS_POINTER_GET value);
  buf_octets_set p src (OF_OCTETS_BYTES_GET value).

(** *** Relocation *)

(** "Relocate data from start offset to the end of the buffer to a new
    position". *)
Definition of_wire_buffer_move_end (wbuf : pointer) (start_offset new_offset : Z) : M unit :=
  '(bytes, new_length) ←
    (if start_offset <? new_offset then
       w ← load_wbuf wbuf;
       let bytes := new_offset - start_offset in
       let new_length := alloc_bytes w + bytes in
       OF_WIRE_BUFFER_ACCESS_CHECK wbuf new_length;;
       mret (bytes, new_length)
     else
       w ← load_wbuf wbuf;
       let bytes := start_offset - new_offset in
       let new_length := alloc_bytes w - bytes in
       mret (bytes, new_length));
  dst ← OF_WIRE_BUFFER_INDEX wbuf new_offset;
  src ← OF_WIRE_BUFFER_INDEX wbuf start_offset;
  MEMMOVE dst src bytes;;
  set_alloc_bytes wbuf new_length.

(** *** Structures that are not implemented

    The four accessors for match and port-description structures are stubs:
    their body is [LOCI_ASSERT(0)], and the structure argument is not looked
    at. *)

Definition of_wire_buffer_match_get {V} (version : Z) (wbuf : pointer)
    (offset : Z) (value : V) : M unit :=
  LOCI_ASSERT false.

Definition of_wire_buffer_match_set {V} (version : Z) (wbuf : pointer)
    (offset : Z) (value : V) : M unit :=
  LOCI_ASSERT false.

Definition of_wire_buffer_of_port_desc_get {V} (version : Z) (wbuf : pointer)
    (offset : Z) (value : V) : M unit :=
  LOCI_ASSERT false.

Definition of_wire_buffer_of_port_desc_set {V} (version : Z) (wbuf : pointer)
    (offset : Z) (value : V) : M unit :=
  LOCI_ASSERT false.

(** *** 128-bit values

    [of_wire_buffer_bitmap_128_get] and its siblings are comma expressions of
    two 64-bit accesses: the [hi] half at [offset], then the [lo] half at
    [offset+8]. A value is the pair of its halves, [(hi, lo)].

    The getters write the two fields of the caller's structure one after the
    other, so a call that stops at the second access has already written
    [hi]. The structure is passed explicitly: [addr] is what it holds on
    entry, and the result pairs the outcome of the call with what it holds
    afterwards. *)

Definition of_wire_buffer_bitmap_128_get (wbuf : pointer) (offset : Z)
    (addr : Z * Z) (m : mem) : outcome unit * (Z * Z) :=
  match of_wire_buffer_u64_get wbuf offset m with
  | Done hi m1 =>
      match of_wire_buffer_u64_get wbuf (offset + 8) m1 with
      | Done lo m2 => (Done () m2, (hi, lo))
      | Abort m2 => (Abort m2, (hi, addr.2))
      | Fault => (Fault, (hi, addr.2))
      end
  | Abort m1 => (Abort m1, addr)
  | Fault => (Fault, addr)
  end.

Definition of_wire_buffer_bitmap_128_set (wbuf : pointer) (offset : Z)
    (addr : Z * Z) : M unit :=
  of_wire_buffer_u64_set wbuf offset addr.1;;
  of_wire_buffer_u64_set wbuf (offset + 8) addr.2.

Definition of_wire_buffer_checksum_128_get (wbuf : pointer) (offset : Z)
    (checksum : Z * Z) (m : mem) : outcome unit * (Z * Z) :=
  match of_wire_buffer_u64_get wbuf offset m with
  | Done hi m1 =>
      match of_wire_buffer_u64_get wbuf (offset + 8) m1 with
      | Done lo m2 => (Done () m2, (hi, lo))
      | Abort m2 => (Abort m2, (hi, checksum.2))
      | Fault => (Fault, (hi, checksum.2))
      end
  | Abort m1 => (Abort m1, checksum)
  | Fault => (Fault, checksum)
  end.

Definition of_wire_buffer_checksum_128_set (wbuf : pointer) (offset : Z)
    (checksum : Z * Z) : M unit :=
  of_wire_buffer_u64_set wbuf offset checksum.1;;
  of_wire_buffer_u64_set wbuf (offset + 8) checksum.2.

(** *** The length of a match structure *)

Section MatchBytes.

(** Modelled from the spec: the macro [OF_MATCH_BYTES] is missing; it is "a
    structure-specific rounding formula" applied to the 16-bit length field,
    and is taken as a parameter. *)
Variable OF_MATCH_BYTES : Z → Z.

Definition of_match_bytes (wbuf : pointer) (offset : Z) : M Z :=
  len ← of_wire_buffer_u16_get wbuf (offset + 2);
  mret (OF_MATCH_BYTES len).

End MatchBytes.

(** * Notions used to state the properties *)

(** ** Buffers in memory *)

(** The structure behind a handle. *)
Definition wbuf_at (m : mem) (p : addr) (w : of_wire_buffer_t) : Prop :=
  heap m !! p = Some (WBuf w).

(** The storage of a buffer: a live block holding at least the used extent. *)
Definition storage_at (m : mem) (w : of_wire_buffer_t) (b : addr) (bs : list Z) : Prop :=
  buf w = Some b ∧ heap m !! b = Some (Bytes bs) ∧
  current_bytes w ≤ Z.of_nat (length bs).

(** The state invariant of a buffer. *)
Definition wbuf_inv (w : of_wire_buffer_t) : Prop :=
  0 ≤ current_bytes w ≤ alloc_bytes w.

(** A structure with one field replaced. *)
Definition with_buf (w : of_wire_buffer_t) (v : pointer) : of_wire_buffer_t :=
  {| buf := v; alloc_bytes := alloc_bytes w;
     current_bytes := current_bytes w; free := free w |}.

Definition with_alloc (w : of_wire_buffer_t) (v : Z) : of_wire_buffer_t :=
  {| buf := buf w; alloc_bytes := v;
     current_bytes := current_bytes w; free := free w |}.

Definition with_current (w : of_wire_buffer_t) (v : Z) : of_wire_buffer_t :=
  {| buf := buf w; alloc_bytes := alloc_bytes w;
     current_bytes := v; free := free w |}.

Definition with_free (w : of_wire_buffer_t) (v : of_buffer_free_f) : of_wire_buffer_t :=
  {| buf := buf w; alloc_bytes := alloc_bytes w;
     current_bytes := current_bytes w; free := v |}.

(** The memory with the structure at [p] replaced. *)
Definition put_wbuf (m : mem) (p : addr) (w : of_wire_buffer_t) : mem :=
  with_heap m (<[p := WBuf w]> (heap m)).

(** The memory after [n] bytes of [v] were stored at [offset] of block [b]. *)
Definition stored (m : mem) (b : addr) (bs : list Z) (offset n v : Z) : mem :=
  with_heap m (<[b := Bytes (splice_bytes bs offset (be_bytes (Z.to_nat n) v))]> (heap m)).

(** The memory after the used extent of the buffer at [p] moved up to [t]. *)
Definition grown (m : mem) (p : addr) (w : of_wire_buffer_t) (t : Z) : mem :=
  put_wbuf m p (with_current w (Z.max (current_bytes w) t)).

(** The size [of_wire_buffer_new] requests for the storage. *)
Definition new_size (a_bytes : Z) : Z :=
  if a_bytes <? OF_WIRE_BUFFER_MIN_ALLOC_BYTES
  then OF_WIRE_BUFFER_MIN_ALLOC_BYTES else a_bytes.

(** ** Outcomes *)

(** Whether a call stopped at an assertion. *)
Definition aborted {A} (r : outcome A) : bool :=
  match r with Abort _ => true | _ => false end.

(** A getter's out-parameter [*value] after a call that found [old] in it:
    assigned on return, left alone otherwise. *)
Definition out_after (old : Z) (r : outcome Z) : Z :=
  match r with Done v _ => v | _ => old end.

(** ** The bounds check *)

(** The condition the check asserts on a non-null handle. *)
Definition access_ok (w : of_wire_buffer_t) (extent : Z) : bool :=
  negb (is_null (buf w)) && (0 <? extent) && (extent <=? current_bytes w).

(** The common shape of the eight scalar accessors, with the width left
    open; each of them is an instance by unfolding. *)
Definition checked_get (n : Z) (wbuf : pointer) (offset : Z) : M Z :=
  OF_WIRE_BUFFER_ACCESS_CHECK wbuf (offset + n);;
  p ← OF_WIRE_BUFFER_INDEX wbuf offset; buf_get n p.

Definition checked_set (n : Z) (wbuf : pointer) (offset : Z) (value : Z) : M unit :=
  OF_WIRE_BUFFER_ACCESS_CHECK wbuf (offset + n);;
  p ← OF_WIRE_BUFFER_INDEX wbuf offset; buf_set n p value.

(** ** The accessors, enumerated *)

Inductive scalar : Type := U8 | U16 | U32 | U64.

Definition width (s : scalar) : Z :=
  match s with
  | U8 => sizeof_uint8_t | U16 => sizeof_uint16_t
  | U32 => sizeof_uint32_t | U64 => sizeof_uint64_t
  end.

Definition scalar_get (s : scalar) : pointer → Z → M Z :=
  match s with
  | U8 => of_wire_buffer_u8_get | U16 => of_wire_buffer_u16_get
  | U32 => of_wire_buffer_u32_get | U64 => of_wire_buffer_u64_get
  end.

Definition scalar_set (s : scalar) : pointer → Z → Z → M unit :=
  match s with
  | U8 => of_wire_buffer_u8_set | U16 => of_wire_buffer_u16_set
  | U32 => of_wire_buffer_u32_set | U64 => of_wire_buffer_u64_set
  end.

Inductive field : Type := PortNo | FmCmd | WcBmap.

Definition field_get (f : field) : Z → pointer → Z → M Z :=
  match f with
  | PortNo => of_wire_buffer_port_no_get
  | FmCmd => of_wire_buffer_fm_cmd_get
  | WcBmap => of_wire_buffer_wc_bmap_get
  end.

Definition field_set (f : field) : Z → pointer → Z → Z → M unit :=
  match f with
  | PortNo => of_wire_buffer_port_no_set
  | FmCmd => of_wire_buffer_fm_cmd_set
  | WcBmap => of_wire_buffer_wc_bmap_set
  end.

(** The four protocol versions. *)
Definition recognized (version : Z) : bool :=
  (version =? OF_VERSION_1_0) || (version =? OF_VERSION_1_1) ||
  (version =? OF_VERSION_1_2) || (version =? OF_VERSION_1_3).

(** The scalar a field occupies on the wire under a version; that the
    accessors agree with this table is [field_get_wire], [field_set_wire]. *)
Definition wire_scalar (f : field) (version : Z) : option scalar :=
  if negb (recognized version) then None else
  match f with
  | PortNo => if version =? OF_VERSION_1_0 then Some U16 else Some U32
  | FmCmd => if version =? OF_VERSION_1_0 then Some U16 else Some U8
  | WcBmap => if version <=? OF_VERSION_1_1 then Some U32 else Some U64
  end.

(** Fixed-width and versioned accessors under one roof. *)
Inductive accessor : Type :=
| Fixed (s : scalar)
| Versioned (f : field) (version : Z).

Definition accessor_get (a : accessor) : pointer → Z → M Z :=
  match a with
  | Fixed s => scalar_get s
  | Versioned f version => field_get f version
  end.

Definition accessor_set (a : accessor) : pointer → Z → Z → M unit :=
  match a with
  | Fixed s => scalar_set s
  | Versioned f version => field_set f version
  end.

(** The number of bytes an accessor touches, when it touches any. *)
Definition accessor_width (a : accessor) : option Z :=
  match a with
  | Fixed s => Some (width s)
  | Versioned f version => width <$> wire_scalar f version
  end.

(** The set operations of the header. *)
Inductive set_op : Type :=
| SetFixed (s : scalar) (value : Z)
| SetVersioned (f : field) (version : Z) (value : Z)
| SetOctets (value : of_octets_t) (cur_len : Z).

Definition run_set (op : set_op) (wbuf : pointer) (offset : Z) : M unit :=
  match op with
  | SetFixed s value => scalar_set s wbuf offset value
  | SetVersioned f version value => field_set f version wbuf offset value
  | SetOctets value cur_len => of_wire_buffer_octets_data_set wbuf offset value cur_len
  end.

(** The extent a set operation asks the bounds check for; none under an
    unrecognized version, where no check is reached. *)
Definition checked_extent (op : set_op) (offset : Z) : option Z :=
  match op with
  | SetFixed s _ => Some (offset + width s)
  | SetVersioned f version _ => (λ s, offset + width s) <$> wire_scalar f version
  | SetOctets value _ => Some (offset + bytes value)
  end.

(** ** A concrete memory

    An allocator that grants every request at the next unused address; a
    caller's block of eight bytes at address 10; a buffer structure at
    address 11 bound to it, with all eight bytes in use ([demo_mem]) or with
    four of them ([half_mem]); and an empty byte run. *)

Definition granting : Allocator := {|
  malloc_pick h n := Some (fresh (dom h));
  malloc_pick_fresh h n a :=
    ltac:(intros [= <-]; apply not_elem_of_dom, is_fresh);
  uninit_bytes n := replicate n 170;
  uninit_bytes_length n := length_replicate n 170;
  uninit_wbuf := {| buf := Some 77%positive; alloc_bytes := -3;
                    current_bytes := 9; free := Some 5%positive |}
|}.

Definition demo_block : list Z := [10; 11; 12; 13; 14; 15; 16; 17].

Definition demo_wbuf : of_wire_buffer_t :=
  {| buf := Some 10%positive; alloc_bytes := 8; current_bytes := 8; free := None |}.

Definition caller_mem : mem :=
  {| heap := {[ 10%positive := Bytes demo_block ]}; released := [] |}.

Definition demo_mem : mem :=
  {| heap := <[ 11%positive := WBuf demo_wbuf ]> (heap caller_mem);
     released := [] |}.

Definition half_wbuf : of_wire_buffer_t :=
  {| buf := Some 10%positive; alloc_bytes := 8; current_bytes := 4; free := None |}.

Definition half_mem : mem := put_wbuf caller_mem 11%positive half_wbuf.

Definition no_octets : of_octets_t := {| data := Some 10%positive; bytes := 0 |}.

(** ** Further notions *)

(** A block whose elements are bytes. *)
Definition byte_block (bs : list Z) : Prop := Forall (λ b, 0 ≤ b < 256) bs.

(** The bytes of block [bs] in the range [[i, i + n)]. *)
Definition slice (bs : list Z) (i n : Z) : list Z :=
  take (Z.to_nat n) (drop (Z.to_nat i) bs).

(** A call that performed an access C leaves undefined. *)
Definition faulted {A} (r : outcome A) : bool :=
  match r with Fault => true | _ => false end.


(** The memory [demo_mem] with two more blocks of the caller: three bytes at
    address 20, four at address 21. *)
Definition octets_mem : mem :=
  with_heap demo_mem
    (<[20%positive := Bytes [1; 2; 3]]>
       (<[21%positive := Bytes [0; 0; 0; 0]]> (heap demo_mem))).

(** A buffer at address 11 over a block of sixteen bytes at address 10, all
    of them in use. *)
Definition wide_block : list Z := replicate 16 7.

Definition wide_wbuf : of_wire_buffer_t :=
  {| buf := Some 10%positive; alloc_bytes := 16; current_bytes := 16;
     free := None |}.

Definition wide_mem : mem :=
  {| heap := <[ 11%positive := WBuf wide_wbuf ]>
               {[ 10%positive := Bytes wide_block ]};
     released := [] |}.


(** * Properties *)

(** ** Running the monad *)

Lemma bind_Done {A B} (c : M A) (f : A → M B) m a m' :
  c m = Done a m' → (c ≫= f) m = f a m'.
Proof. intros E. unfold mbind, M_bind. by rewrite E. Qed.

Lemma bind_Abort {A B} (c : M A) (f : A → M B) m m' :
  c m = Abort m' → (c ≫= f) m = Abort m'.
Proof. intros E. unfold mbind, M_bind. by rewrite E. Qed.

Lemma LOCI_ASSERT_0_spec {A} (k : M A) m :
  LOCI_ASSERT_0 m = (LOCI_ASSERT false;; k) m.
Proof. reflexivity. Qed.

Lemma with_heap_id m : with_heap m (heap m) = m.
Proof. by destruct m. Qed.

(** ** Primitive accesses *)

Lemma load_wbuf_Some m p w :
  heap m !! p = Some (WBuf w) → load_wbuf (Some p) m = Done w m.
Proof. intros E. unfold load_wbuf. by rewrite E. Qed.

Lemma store_wbuf_Some m p w w' :
  heap m !! p = Some (WBuf w) →
  store_wbuf (Some p) w' m = Done () (with_heap m (<[p := WBuf w']> (heap m))).
Proof. intros E. unfold store_wbuf. by rewrite E. Qed.

Lemma in_block_true len i n :
  0 ≤ i → 0 ≤ n → i + n ≤ Z.of_nat len → in_block len i n = true.
Proof.
  intros. unfold in_block.
  rewrite !andb_true_iff, !Z.leb_le. done.
Qed.

Lemma load_bytes_Some m b i n bs :
  heap m !! b = Some (Bytes bs) → 0 ≤ i → 0 ≤ n → i + n ≤ Z.of_nat (length bs) →
  load_bytes (b, i) n m = Done (take (Z.to_nat n) (drop (Z.to_nat i) bs)) m.
Proof.
  intros E ? ? ?. unfold load_bytes. simpl. rewrite E.
  by rewrite in_block_true.
Qed.

Lemma store_bytes_Some m b i ds bs :
  heap m !! b = Some (Bytes bs) → 0 ≤ i → i + Z.of_nat (length ds) ≤ Z.of_nat (length bs) →
  store_bytes (b, i) ds m
  = Done () (with_heap m (<[b := Bytes (splice_bytes bs i ds)]> (heap m))).
Proof.
  intros E ? ?. unfold store_bytes. simpl. rewrite E.
  rewrite in_block_true; [done | lia ..].
Qed.

Lemma length_splice_bytes bs i ds :
  0 ≤ i → i + Z.of_nat (length ds) ≤ Z.of_nat (length bs) →
  length (splice_bytes bs i ds) = length bs.
Proof.
  intros. unfold splice_bytes.
  rewrite !length_app, length_take, length_drop. lia.
Qed.

(** Reading back what was just written. *)
Lemma read_splice_bytes bs i ds :
  0 ≤ i → i + Z.of_nat (length ds) ≤ Z.of_nat (length bs) →
  take (length ds) (drop (Z.to_nat i) (splice_bytes bs i ds)) = ds.
Proof.
  intros. unfold splice_bytes.
  rewrite drop_app_length'; [| rewrite length_take; lia].
  by rewrite take_app_length.
Qed.

(** Bytes before the written run are kept. *)
Lemma splice_bytes_before bs i ds (k : nat) :
  0 ≤ i → (k < Z.to_nat i)%nat → (Z.to_nat i ≤ length bs)%nat →
  splice_bytes bs i ds !! k = bs !! k.
Proof.
  intros. unfold splice_bytes.
  rewrite lookup_app_l; [| rewrite length_take; lia].
  by rewrite lookup_take_lt.
Qed.

(** Bytes after the written run are kept. *)
Lemma splice_bytes_after bs i ds (k : nat) :
  0 ≤ i → i + Z.of_nat (length ds) ≤ Z.of_nat (length bs) →
  (Z.to_nat i + length ds ≤ k)%nat →
  splice_bytes bs i ds !! k = bs !! k.
Proof.
  intros. unfold splice_bytes.
  rewrite lookup_app_r; [| rewrite length_take; lia].
  rewrite lookup_app_r; [| rewrite length_take; lia].
  rewrite lookup_drop, length_take. f_equal. lia.
Qed.

(** Writing nothing changes nothing. *)
Lemma splice_bytes_nil bs i : splice_bytes bs i [] = bs.
Proof.
  unfold splice_bytes. simpl. rewrite Nat.add_0_r. apply take_drop.
Qed.

(** ** Big-endian encoding *)

Lemma length_be_bytes n v : length (be_bytes n v) = n.
Proof. induction n as [| n IH]; simpl; [done | by rewrite IH]. Qed.

Lemma be_byte_div v k :
  0 ≤ k → Z.land (Z.shiftr v k) 255 = (v / 2 ^ k) mod 256.
Proof.
  intros Hk. rewrite Z.shiftr_div_pow2 by done.
  change 255 with (Z.ones 8). by rewrite Z.land_ones.
Qed.

Lemma be_byte_range v k : 0 ≤ k → 0 ≤ Z.land (Z.shiftr v k) 255 < 256.
Proof. intros Hk. rewrite be_byte_div by done. by apply Z.mod_pos_bound. Qed.

Lemma be_bytes_range n v : Forall (λ b, 0 ≤ b < 256) (be_bytes n v).
Proof.
  induction n as [| n IH]; simpl; constructor; [| done].
  apply be_byte_range. lia.
Qed.

Lemma lor_shiftl_byte acc b :
  0 ≤ b < 256 → Z.lor (Z.shiftl acc 8) b = acc * 256 + b.
Proof.
  intros Hb.
  assert (Hdisj : Z.land (Z.shiftl acc 8) b = 0).
  { apply Z.bits_inj'. intros k Hk.
    rewrite Z.land_spec, Z.bits_0.
    destruct (decide (k < 8)) as [Hlt | Hge].
    - by rewrite Z.shiftl_spec_low.
    - rewrite <- (Z.mod_small b (2 ^ 8)) by done.
      rewrite Z.mod_pow2_bits_high by lia. apply andb_false_r. }
  rewrite <- Z.lxor_lor by done.
  rewrite <- Z.add_nocarry_lxor by done.
  by rewrite Z.shiftl_mul_pow2.
Qed.

Lemma fold_be_bytes n v acc :
  fold_left (λ a b, Z.lor (Z.shiftl a 8) b) (be_bytes n v) acc
  = acc * 2 ^ (8 * Z.of_nat n) + v mod 2 ^ (8 * Z.of_nat n).
Proof.
  revert acc. induction n as [| n IH]; intros acc.
  - simpl. rewrite Z.mod_1_r. lia.
  - cbn [be_bytes fold_left]. rewrite IH.
    rewrite lor_shiftl_byte by (apply be_byte_range; lia).
    rewrite be_byte_div by lia.
    replace (8 * Z.of_nat (S n)) with (8 * Z.of_nat n + 8) by lia.
    rewrite Z.pow_add_r by lia.
    set (P := 2 ^ (8 * Z.of_nat n)).
    assert (0 < P) by (apply Z.pow_pos_nonneg; lia).
    change (2 ^ 8) with 256.
    rewrite (Z.rem_mul_r v P 256) by lia. ring.
Qed.

(** Decoding what was encoded gives the value reduced to the width. *)
Lemma be_value_be_bytes n v :
  be_value (be_bytes n v) = v mod 2 ^ (8 * Z.of_nat n).
Proof. unfold be_value. rewrite fold_be_bytes. lia. Qed.

(** ** The bounds check *)

Lemma access_check_null m extent :
  OF_WIRE_BUFFER_ACCESS_CHECK NULL extent m = Abort m.
Proof. reflexivity. Qed.

Lemma access_check_at m p w extent :
  wbuf_at m p w →
  OF_WIRE_BUFFER_ACCESS_CHECK (Some p) extent m
  = if access_ok w extent then Done () m else Abort m.
Proof.
  intros Hw. unfold OF_WIRE_BUFFER_ACCESS_CHECK. simpl.
  by rewrite (bind_Done _ _ _ _ _ (load_wbuf_Some _ _ _ Hw)).
Qed.

Lemma access_ok_true w extent :
  access_ok w extent = true ↔
  buf w ≠ NULL ∧ 0 < extent ∧ extent ≤ current_bytes w.
Proof.
  unfold access_ok. rewrite !andb_true_iff, Z.ltb_lt, Z.leb_le.
  destruct (buf w); simpl; unfold NULL.
  - split; [intros [[_ ?] ?] | intros (_ & ? & ?)]; done.
  - split; [intros [[? _] _] | intros [? _]]; done.
Qed.

Lemma access_ok_false w extent :
  access_ok w extent = false ↔
  buf w = NULL ∨ extent ≤ 0 ∨ current_bytes w < extent.
Proof.
  rewrite <- not_true_iff_false, access_ok_true.
  destruct (buf w) as [b |]; unfold NULL; split.
  - intros Hn. right.
    destruct (decide (0 < extent)); [| lia].
    destruct (decide (extent ≤ current_bytes w)); [| lia].
    exfalso. by apply Hn.
  - intros [? | ?] (_ & ? & ?); [done | lia].
  - by left.
  - intros _ [? _]. done.
Qed.

(** The check never writes: it passes or stops with the memory it found. *)
Lemma access_check_cases wbuf extent m :
  OF_WIRE_BUFFER_ACCESS_CHECK wbuf extent m = Done () m ∨
  OF_WIRE_BUFFER_ACCESS_CHECK wbuf extent m = Abort m ∨
  OF_WIRE_BUFFER_ACCESS_CHECK wbuf extent m = Fault.
Proof.
  destruct wbuf as [p |]; [| right; by left].
  unfold OF_WIRE_BUFFER_ACCESS_CHECK, mbind, M_bind, load_wbuf. simpl.
  destruct (heap m !! p) as [[bs | w] |]; [by right; right | | by right; right].
  unfold LOCI_ASSERT. destruct (_ && _); [by left | right; by left].
Qed.

Lemma index_at m p w b offset :
  wbuf_at m p w → buf w = Some b →
  OF_WIRE_BUFFER_INDEX (Some p) offset m = Done (b, offset) m.
Proof.
  intros Hw Hb. unfold OF_WIRE_BUFFER_INDEX.
  rewrite (bind_Done _ _ _ _ _ (load_wbuf_Some _ _ _ Hw)).
  unfold WBUF_BUF. by rewrite Hb.
Qed.

(** ** Checked accesses, whatever the width *)

Lemma checked_set_Done m p w b bs offset n v :
  wbuf_at m p w → storage_at m w b bs →
  0 ≤ offset → 0 < n → offset + n ≤ current_bytes w →
  checked_set n (Some p) offset v m = Done () (stored m b bs offset n v).
Proof.
  intros Hw (Hb & Hbs & Hlen) Hoff Hn Hext. unfold checked_set.
  rewrite (bind_Done _ _ m () m).
  2:{ rewrite (access_check_at _ _ _ _ Hw).
      replace (access_ok w (offset + n)) with true; [done |].
      symmetry. apply access_ok_true. rewrite Hb. unfold NULL.
      split; [done | lia]. }
  rewrite (bind_Done _ _ _ _ _ (index_at _ _ _ _ _ Hw Hb)).
  unfold buf_set. apply store_bytes_Some; [done | done |].
  rewrite length_be_bytes. lia.
Qed.

Lemma checked_get_Done m p w b bs offset n :
  wbuf_at m p w → storage_at m w b bs →
  0 ≤ offset → 0 < n → offset + n ≤ current_bytes w →
  checked_get n (Some p) offset m
  = Done (be_value (take (Z.to_nat n) (drop (Z.to_nat offset) bs))) m.
Proof.
  intros Hw (Hb & Hbs & Hlen) Hoff Hn Hext. unfold checked_get.
  rewrite (bind_Done _ _ m () m).
  2:{ rewrite (access_check_at _ _ _ _ Hw).
      replace (access_ok w (offset + n)) with true; [done |].
      symmetry. apply access_ok_true. rewrite Hb. unfold NULL.
      split; [done | lia]. }
  rewrite (bind_Done _ _ _ _ _ (index_at _ _ _ _ _ Hw Hb)).
  unfold buf_get.
  rewrite (bind_Done _ _ _ _ _ (load_bytes_Some _ _ _ _ _ Hbs Hoff
             (Z.lt_le_incl _ _ Hn) ltac:(lia))).
  reflexivity.
Qed.

(** A store into the storage leaves the structure and the extent alone. *)
Lemma stored_wbuf_at m p w b bs offset n v :
  wbuf_at m p w → heap m !! b = Some (Bytes bs) →
  wbuf_at (stored m b bs offset n v) p w.
Proof.
  intros Hw Hbs. unfold wbuf_at, stored. simpl.
  rewrite lookup_insert_ne; [done |].
  intros ->. unfold wbuf_at in Hw. congruence.
Qed.

Lemma stored_storage_at m w b bs offset n v :
  storage_at m w b bs → 0 ≤ offset → 0 ≤ n →
  offset + n ≤ Z.of_nat (length bs) →
  storage_at (stored m b bs offset n v) w b
    (splice_bytes bs offset (be_bytes (Z.to_nat n) v)).
Proof.
  intros (Hb & Hbs & Hlen) Hoff Hn Hext. unfold storage_at, stored. simpl.
  rewrite lookup_insert_eq.
  rewrite length_splice_bytes; [done | done |].
  rewrite length_be_bytes. lia.
Qed.

(** Set, then get at the same place: the value reduced to the width. *)
Lemma checked_set_get m p w b bs offset n v :
  wbuf_at m p w → storage_at m w b bs →
  0 ≤ offset → 0 < n → offset + n ≤ current_bytes w →
  checked_get n (Some p) offset (stored m b bs offset n v)
  = Done (v mod 2 ^ (8 * n)) (stored m b bs offset n v).
Proof.
  intros Hw Hst Hoff Hn Hext.
  pose proof Hst as (Hb & Hbs & Hlen).
  rewrite (checked_get_Done _ p w b
             (splice_bytes bs offset (be_bytes (Z.to_nat n) v))); try done.
  - f_equal.
    rewrite <- (length_be_bytes (Z.to_nat n) v) at 1.
    rewrite read_splice_bytes.
    + rewrite be_value_be_bytes. do 2 f_equal. lia.
    + done.
    + rewrite length_be_bytes. lia.
  - by apply stored_wbuf_at.
  - apply stored_storage_at; [done | done | lia | lia].
Qed.

(** ** The accessors, enumerated *)

Lemma scalar_get_checked s : scalar_get s = checked_get (width s).
Proof. by destruct s. Qed.

Lemma scalar_set_checked s : scalar_set s = checked_set (width s).
Proof. by destruct s. Qed.

Lemma width_pos s : 0 < width s.
Proof. by destruct s. Qed.

Lemma recognized_cases version :
  recognized version = true →
  version = 1 ∨ version = 2 ∨ version = 3 ∨ version = 4.
Proof.
  unfold recognized, OF_VERSION_1_0, OF_VERSION_1_1, OF_VERSION_1_2,
    OF_VERSION_1_3.
  rewrite !orb_true_iff, !Z.eqb_eq. tauto.
Qed.

Lemma bind_mret_id {A} (c : M A) m : (v ← c; mret v) m = c m.
Proof. unfold mbind, M_bind, mret, M_ret. by destruct (c m). Qed.

(** Under a recognized version a field getter is the getter of its wire
    scalar, and a field setter is that scalar's setter applied to the
    narrowed value. *)
Lemma field_get_wire f version s wbuf offset m :
  wire_scalar f version = Some s →
  field_get f version wbuf offset m = scalar_get s wbuf offset m.
Proof.
  unfold wire_scalar. destruct (recognized version) eqn:Hr; [| done].
  apply recognized_cases in Hr.
  destruct Hr as [-> | [-> | [-> | ->]]], f; simpl; intros [= <-];
    apply bind_mret_id.
Qed.

Lemma field_set_wire f version s wbuf offset v m :
  wire_scalar f version = Some s →
  field_set f version wbuf offset v m
  = scalar_set s wbuf offset (Z.land v (Z.ones (8 * width s))) m.
Proof.
  unfold wire_scalar. destruct (recognized version) eqn:Hr; [| done].
  apply recognized_cases in Hr.
  destruct Hr as [-> | [-> | [-> | ->]]], f; simpl; intros [= <-];
    reflexivity.
Qed.

Lemma field_get_unrecognized f version wbuf offset m :
  recognized version = false → field_get f version wbuf offset m = Abort m.
Proof.
  unfold recognized. rewrite !orb_false_iff. intros [[[E0 E1] E2] E3].
  destruct f; simpl;
    unfold of_wire_buffer_port_no_get, of_wire_buffer_fm_cmd_get,
      of_wire_buffer_wc_bmap_get;
    by rewrite E0, E1, E2, E3.
Qed.

Lemma field_set_unrecognized f version wbuf offset v m :
  recognized version = false → field_set f version wbuf offset v m = Abort m.
Proof.
  unfold recognized. rewrite !orb_false_iff. intros [[[E0 E1] E2] E3].
  destruct f; simpl;
    unfold of_wire_buffer_port_no_set, of_wire_buffer_fm_cmd_set,
      of_wire_buffer_wc_bmap_set;
    by rewrite E0, E1, E2, E3.
Qed.

(** ** Which accesses stop at the check *)

Lemma load_bytes_not_aborted p n m : aborted (load_bytes p n m) = false.
Proof.
  unfold load_bytes. destruct (heap m !! p.1) as [[bs | w] |]; [| done ..].
  by destruct (in_block _ _ _).
Qed.

Lemma store_bytes_not_aborted p ds m : aborted (store_bytes p ds m) = false.
Proof.
  unfold store_bytes. destruct (heap m !! p.1) as [[bs | w] |]; [| done ..].
  by destruct (in_block _ _ _).
Qed.

Lemma buf_get_not_aborted n p m : aborted (buf_get n p m) = false.
Proof.
  unfold buf_get, mbind, M_bind.
  pose proof (load_bytes_not_aborted p n m) as Hl.
  by destruct (load_bytes p n m).
Qed.

Lemma checked_get_aborted n m p w offset :
  wbuf_at m p w →
  aborted (checked_get n (Some p) offset m) = negb (access_ok w (offset + n)).
Proof.
  intros Hw. unfold checked_get.
  pose proof (access_check_at m p w (offset + n) Hw) as Hc.
  destruct (access_ok w (offset + n)) eqn:Hok.
  - rewrite (bind_Done _ _ _ _ _ Hc).
    apply access_ok_true in Hok as (Hb & _).
    destruct (buf w) as [b |] eqn:Eb; [| done].
    rewrite (bind_Done _ _ _ _ _ (index_at _ _ _ _ _ Hw Eb)).
    apply buf_get_not_aborted.
  - by rewrite (bind_Abort _ _ _ _ Hc).
Qed.

Lemma checked_set_aborted n m p w offset v :
  wbuf_at m p w →
  aborted (checked_set n (Some p) offset v m) = negb (access_ok w (offset + n)).
Proof.
  intros Hw. unfold checked_set.
  pose proof (access_check_at m p w (offset + n) Hw) as Hc.
  destruct (access_ok w (offset + n)) eqn:Hok.
  - rewrite (bind_Done _ _ _ _ _ Hc).
    apply access_ok_true in Hok as (Hb & _).
    destruct (buf w) as [b |] eqn:Eb; [| done].
    rewrite (bind_Done _ _ _ _ _ (index_at _ _ _ _ _ Hw Eb)).
    apply store_bytes_not_aborted.
  - by rewrite (bind_Abort _ _ _ _ Hc).
Qed.

(** What the check decides for a scalar. From offset 0 on, the extent asked
    for is positive, and only the upper bound matters. *)
Lemma access_ok_scalar w offset s :
  0 ≤ offset →
  (buf w = NULL ∨ offset + width s ≤ 0 ∨ current_bytes w < offset + width s)
  ↔ (buf w = NULL ∨ current_bytes w < offset + width s).
Proof.
  intros Hoff. pose proof (width_pos s). intuition lia.
Qed.

(** C4, amended. A scalar get or set of width [w] at offset [off] fails the
    bounds check if and only if [off + w] exceeds the used extent or
    [off + w ≤ 0] (or the buffer or its storage is null); this includes the
    boundary case [off + w = used extent + 1]; an access with
    [0 < off + w ≤ used extent] on a buffer with storage passes the check.
    From offset 0 on the clause [off + w ≤ 0] never applies, and the check
    fails exactly when [off + w] exceeds the used extent (or for null). *)
Theorem access_fails_iff_outside_extent s m p w offset value :
  wbuf_at m p w →
  let outside :=
    buf w = NULL ∨ offset + width s ≤ 0 ∨ current_bytes w < offset + width s in
  (aborted (OF_WIRE_BUFFER_ACCESS_CHECK (Some p) (offset + width s) m) = true
     ↔ outside) ∧
  (aborted (scalar_get s (Some p) offset m) = true ↔ outside) ∧
  (aborted (scalar_set s (Some p) offset value m) = true ↔ outside) ∧
  (offset + width s = current_bytes w + 1 →
     aborted (scalar_get s (Some p) offset m) = true ∧
     aborted (scalar_set s (Some p) offset value m) = true) ∧
  (buf w ≠ NULL → 0 < offset + width s → offset + width s ≤ current_bytes w →
     OF_WIRE_BUFFER_ACCESS_CHECK (Some p) (offset + width s) m = Done () m) ∧
  aborted (scalar_get s NULL offset m) = true ∧
  aborted (scalar_set s NULL offset value m) = true ∧
  (0 ≤ offset →
     (outside ↔ buf w = NULL ∨ current_bytes w < offset + width s)).
Proof.
  intros Hw outside.
  pose proof (access_ok_false w (offset + width s)) as Hiff.
  fold outside in Hiff.
  rewrite scalar_get_checked, scalar_set_checked.
  rewrite (checked_get_aborted _ _ _ _ _ Hw).
  rewrite (checked_set_aborted _ _ _ _ _ _ Hw).
  rewrite (access_check_at _ _ _ _ Hw).
  rewrite negb_true_iff.
  split_and!; try done.
  - rewrite <- Hiff. by destruct (access_ok _ _).
  - intros E. assert (Hout : outside) by (right; right; lia).
    apply Hiff in Hout. by rewrite Hout.
  - intros Hb Hpos Hext. destruct (access_ok _ _) eqn:Hok; [done |].
    destruct (proj1 Hiff eq_refl) as [? | [? | ?]]; [done | lia | lia].
  - intros Hoff. by apply access_ok_scalar.
Qed.

Lemma access_fails_iff_outside_extent_witness :
  wbuf_at demo_mem 11%positive demo_wbuf ∧
  aborted (scalar_get U16 (Some 11%positive) 7 demo_mem) = true ∧
  aborted (scalar_set U16 (Some 11%positive) 7 0 demo_mem) = true ∧
  OF_WIRE_BUFFER_ACCESS_CHECK (Some 11%positive) (6 + width U16) demo_mem
    = Done () demo_mem.
Proof.
  assert (Hw : wbuf_at demo_mem 11%positive demo_wbuf) by reflexivity.
  destruct (access_fails_iff_outside_extent U16 demo_mem 11%positive
              demo_wbuf 7 0 Hw) as (_ & _ & _ & Hedge & _).
  destruct (Hedge eq_refl) as [Hg Hs].
  destruct (access_fails_iff_outside_extent U16 demo_mem 11%positive
              demo_wbuf 6 0 Hw) as (_ & _ & _ & _ & Hpass & _).
  refine (conj Hw (conj Hg (conj Hs _))).
  apply Hpass; [done | | ]; unfold width, sizeof_uint16_t; simpl; lia.
Defined.

(** C4 as stated fails: on the demo buffer, with storage and eight bytes in
    use, a one-byte get at offset -1 asks for the extent 0, within the used
    extent, and yet stops at the bounds check. *)
Lemma access_below_zero_stops_at_check :
  buf demo_wbuf ≠ NULL ∧
  -1 + width U8 ≤ current_bytes demo_wbuf ∧
  OF_WIRE_BUFFER_ACCESS_CHECK (Some 11%positive) (-1 + width U8) demo_mem
    = Abort demo_mem ∧
  ¬ (aborted (scalar_get U8 (Some 11%positive) (-1) demo_mem) = true
     ↔ buf demo_wbuf = NULL ∨ current_bytes demo_wbuf < -1 + width U8).
Proof.
  split_and!.
  - discriminate.
  - unfold width, sizeof_uint8_t. simpl. lia.
  - reflexivity.
  - intros [Hstop _].
    destruct (Hstop eq_refl) as [Hnull | Hbeyond].
    + discriminate Hnull.
    + unfold width, sizeof_uint8_t in Hbeyond. simpl in Hbeyond. lia.
Qed.

(** ** Set, then get *)

(** Whatever the value, reading back gives it reduced to the wire width. *)
Lemma accessor_set_get_mod a n m p w b bs offset v :
  accessor_width a = Some n →
  wbuf_at m p w → storage_at m w b bs →
  0 ≤ offset → offset + n ≤ current_bytes w →
  ∃ m', accessor_set a (Some p) offset v m = Done () m' ∧
        accessor_get a (Some p) offset m' = Done (v mod 2 ^ (8 * n)) m'.
Proof.
  intros Ha Hw Hst Hoff Hext. destruct a as [s | f version]; simpl in *.
  - injection Ha as <-.
    exists (stored m b bs offset (width s) v).
    rewrite scalar_get_checked, scalar_set_checked.
    pose proof (width_pos s).
    split; [by eapply checked_set_Done | by eapply checked_set_get].
  - destruct (wire_scalar f version) as [s |] eqn:Hs; [| done].
    injection Ha as <-.
    pose proof (width_pos s).
    set (v' := Z.land v (Z.ones (8 * width s))).
    exists (stored m b bs offset (width s) v').
    split.
    + rewrite (field_set_wire _ _ _ _ _ _ _ Hs), scalar_set_checked.
      by eapply checked_set_Done.
    + rewrite (field_get_wire _ _ _ _ _ _ Hs), scalar_get_checked.
      rewrite (checked_set_get m p w b bs offset (width s) v') by done.
      f_equal. unfold v'. rewrite Z.land_ones by lia.
      apply Z.mod_mod. apply Z.pow_nonzero; lia.
Qed.

(** C3, amended. On a buffer whose storage holds its used extent, for every
    fixed-width scalar and every version-dependent field under each of the
    four versions, every offset with [0 ≤ offset] and [offset + width] within
    the used extent, and every value that fits the width the accessor has on
    the wire, set and then get at the same offset returns the value. *)
Theorem set_then_get_returns_value a n m p w b bs offset v :
  accessor_width a = Some n →
  wbuf_at m p w → storage_at m w b bs →
  0 ≤ offset → offset + n ≤ current_bytes w →
  0 ≤ v < 2 ^ (8 * n) →
  ∃ m', accessor_set a (Some p) offset v m = Done () m' ∧
        accessor_get a (Some p) offset m' = Done v m'.
Proof.
  intros Ha Hw Hst Hoff Hext Hv.
  destruct (accessor_set_get_mod a n m p w b bs offset v Ha Hw Hst Hoff Hext)
    as (m' & Hset & Hget).
  exists m'. split; [done |].
  by rewrite Z.mod_small in Hget.
Qed.

Lemma set_then_get_returns_value_witness :
  accessor_width (Versioned PortNo 3) = Some 4 ∧
  wbuf_at demo_mem 11%positive demo_wbuf ∧
  storage_at demo_mem demo_wbuf 10%positive demo_block ∧
  0 ≤ 4 ∧ 4 + 4 ≤ current_bytes demo_wbuf ∧
  0 ≤ 3735928559 < 2 ^ (8 * 4) ∧
  ∃ m', of_wire_buffer_port_no_set 3 (Some 11%positive) 4 3735928559 demo_mem
          = Done () m' ∧
        of_wire_buffer_port_no_get 3 (Some 11%positive) 4 m'
          = Done 3735928559 m'.
Proof.
  assert (Ha : accessor_width (Versioned PortNo 3) = Some 4) by reflexivity.
  assert (Hw : wbuf_at demo_mem 11%positive demo_wbuf) by reflexivity.
  assert (Hst : storage_at demo_mem demo_wbuf 10%positive demo_block).
  { split_and!; [reflexivity | reflexivity | simpl; lia]. }
  assert (Hoff : 0 ≤ 4) by lia.
  assert (Hext : 4 + 4 ≤ current_bytes demo_wbuf) by (simpl; lia).
  assert (Hv : 0 ≤ 3735928559 < 2 ^ (8 * 4)) by (simpl; lia).
  split_and!; try done.
  exact (set_then_get_returns_value (Versioned PortNo 3) 4 demo_mem
           11%positive demo_wbuf 10%positive demo_block 4 3735928559
           Ha Hw Hst Hoff Hext Hv).
Defined.

(** C3 as stated fails: a port number wider than sixteen bits, set under
    version 1 at an offset within the used extent, does not read back. *)
Lemma port_no_v1_set_get_narrows :
  4 + 2 ≤ current_bytes demo_wbuf ∧
  ¬ ∃ m', of_wire_buffer_port_no_set OF_VERSION_1_0 (Some 11%positive) 4 74565
            demo_mem = Done () m' ∧
          of_wire_buffer_port_no_get OF_VERSION_1_0 (Some 11%positive) 4 m'
            = Done 74565 m'.
Proof.
  split; [simpl; lia |].
  intros (m' & Hset & Hget).
  vm_compute in Hset. injection Hset as <-.
  vm_compute in Hget. discriminate Hget.
Qed.

(** ** Failing checks write nothing *)

Lemma access_check_aborted wbuf extent m :
  aborted (OF_WIRE_BUFFER_ACCESS_CHECK wbuf extent m) = true →
  OF_WIRE_BUFFER_ACCESS_CHECK wbuf extent m = Abort m.
Proof.
  destruct (access_check_cases wbuf extent m) as [E | [E | E]];
    rewrite E; done.
Qed.

Lemma checked_set_check_fails n wbuf offset v m :
  aborted (OF_WIRE_BUFFER_ACCESS_CHECK wbuf (offset + n) m) = true →
  checked_set n wbuf offset v m = Abort m.
Proof.
  intros Hc. apply access_check_aborted in Hc.
  unfold checked_set. by rewrite (bind_Abort _ _ _ _ Hc).
Qed.

(** C6. A set operation (fixed-width scalar, versioned field, byte run)
    whose bounds check fails stops with the memory exactly as it found it:
    buffer contents and used extent are unchanged, nothing was written. *)
Theorem failed_check_leaves_memory op wbuf offset extent m :
  checked_extent op offset = Some extent →
  aborted (OF_WIRE_BUFFER_ACCESS_CHECK wbuf extent m) = true →
  run_set op wbuf offset m = Abort m.
Proof.
  intros Hext Hc. destruct op as [s v | f version v | value cur_len]; simpl in *.
  - injection Hext as <-. rewrite scalar_set_checked.
    by apply checked_set_check_fails.
  - destruct (wire_scalar f version) as [s |] eqn:Hs; [| done].
    injection Hext as <-.
    rewrite (field_set_wire _ _ _ _ _ _ _ Hs), scalar_set_checked.
    by apply checked_set_check_fails.
  - injection Hext as <-. apply access_check_aborted in Hc.
    unfold of_wire_buffer_octets_data_set, OF_OCTETS_BYTES_GET.
    destruct ((cur_len =? 0) || (cur_len =? bytes value)) eqn:Hlen.
    + rewrite (bind_Done _ _ m () m) by done.
      by rewrite (bind_Abort _ _ _ _ Hc).
    + by apply bind_Abort.
Qed.

Lemma failed_check_leaves_memory_witness :
  checked_extent (SetFixed U32 287454020) 5 = Some 9 ∧
  aborted (OF_WIRE_BUFFER_ACCESS_CHECK (Some 11%positive) 9 demo_mem) = true ∧
  of_wire_buffer_u32_set (Some 11%positive) 5 287454020 demo_mem = Abort demo_mem.
Proof.
  assert (He : checked_extent (SetFixed U32 287454020) 5 = Some 9) by reflexivity.
  assert (Hc : aborted (OF_WIRE_BUFFER_ACCESS_CHECK (Some 11%positive) 9 demo_mem)
               = true) by reflexivity.
  split_and!; [done | done |].
  exact (failed_check_leaves_memory (SetFixed U32 287454020) (Some 11%positive)
           5 9 demo_mem He Hc).
Defined.

(** ** Unrecognized versions *)

(** C9. Under a version tag outside the four recognized ones, each versioned
    accessor (port number, flow-mod command, wildcard bitmap; get and set)
    stops at its assertion having read and written nothing: the memory, and
    with it buffer contents and used extent, is as before, and a getter's
    out-parameter keeps its old value. *)
Theorem unrecognized_version_aborts version f wbuf offset value old m :
  recognized version = false →
  field_get f version wbuf offset m = Abort m ∧
  field_set f version wbuf offset value m = Abort m ∧
  out_after old (field_get f version wbuf offset m) = old.
Proof.
  intros Hv.
  rewrite (field_get_unrecognized _ _ _ _ _ Hv).
  rewrite (field_set_unrecognized _ _ _ _ _ _ Hv).
  done.
Qed.

Lemma unrecognized_version_aborts_witness :
  recognized 5 = false ∧
  of_wire_buffer_wc_bmap_get 5 (Some 11%positive) 0 demo_mem = Abort demo_mem ∧
  of_wire_buffer_wc_bmap_set 5 (Some 11%positive) 0 1 demo_mem = Abort demo_mem ∧
  out_after 42 (of_wire_buffer_wc_bmap_get 5 (Some 11%positive) 0 demo_mem) = 42.
Proof.
  assert (Hv : recognized 5 = false) by reflexivity.
  split; [done |].
  exact (unrecognized_version_aborts 5 WcBmap (Some 11%positive) 0 1 42
           demo_mem Hv).
Defined.

(** ** Zero-length byte runs *)

Lemma store_nothing m b i bs :
  heap m !! b = Some (Bytes bs) → 0 ≤ i → i ≤ Z.of_nat (length bs) →
  store_bytes (b, i) [] m = Done () m.
Proof.
  intros Hb Hi Hlen.
  rewrite (store_bytes_Some _ _ _ _ _ Hb Hi) by (simpl; lia).
  rewrite splice_bytes_nil, insert_id by done.
  by rewrite with_heap_id.
Qed.

Lemma load_nothing m b i bs :
  heap m !! b = Some (Bytes bs) → 0 ≤ i → i ≤ Z.of_nat (length bs) →
  load_bytes (b, i) 0 m = Done [] m.
Proof.
  intros Hb Hi Hlen.
  by rewrite (load_bytes_Some _ _ _ _ _ Hb Hi) by lia.
Qed.

(** C10. The bounds check wants a strictly positive extent. A byte-run get
    or set of zero bytes at offset 0 therefore stops at the check, on every
    buffer; at an offset above 0 and within the used extent of a buffer with
    storage it passes the check, and the call returns having changed
    nothing. *)
Theorem zero_length_run_needs_positive_extent m value cur_len :
  bytes value = 0 →
  (∀ wbuf, wbuf = NULL ∨ (∃ p w, wbuf = Some p ∧ wbuf_at m p w) →
     aborted (OF_WIRE_BUFFER_ACCESS_CHECK wbuf (0 + bytes value) m) = true ∧
     of_wire_buffer_octets_data_get wbuf 0 value m = Abort m ∧
     of_wire_buffer_octets_data_set wbuf 0 value cur_len m = Abort m) ∧
  (∀ p w b bs offset,
     wbuf_at m p w → storage_at m w b bs →
     0 < offset → offset ≤ current_bytes w →
     OF_WIRE_BUFFER_ACCESS_CHECK (Some p) (offset + bytes value) m = Done () m ∧
     ∀ d ds, data value = Some d → heap m !! d = Some (Bytes ds) →
       of_wire_buffer_octets_data_get (Some p) offset value m = Done () m ∧
       of_wire_buffer_octets_data_set (Some p) offset value 0 m = Done () m).
Proof.
  intros Hz. split.
  - intros wbuf Hwbuf.
    assert (Hc : OF_WIRE_BUFFER_ACCESS_CHECK wbuf (0 + bytes value) m = Abort m).
    { rewrite Hz. destruct Hwbuf as [-> | (p & w & -> & Hw)]; [done |].
      rewrite (access_check_at _ _ _ _ Hw).
      unfold access_ok. simpl. by rewrite andb_false_r. }
    split_and!.
    + by rewrite Hc.
    + unfold of_wire_buffer_octets_data_get, OF_OCTETS_BYTES_GET.
      by rewrite (bind_Abort _ _ _ _ Hc).
    + unfold of_wire_buffer_octets_data_set, OF_OCTETS_BYTES_GET.
      destruct ((cur_len =? 0) || (cur_len =? bytes value)).
      * rewrite (bind_Done _ _ m () m) by done.
        by rewrite (bind_Abort _ _ _ _ Hc).
      * by apply bind_Abort.
  - intros p w b bs offset Hw Hst Hpos Hext.
    pose proof Hst as (Hb & Hbs & Hlen).
    assert (Hc : OF_WIRE_BUFFER_ACCESS_CHECK (Some p) (offset + bytes value) m
                 = Done () m).
    { rewrite (access_check_at _ _ _ _ Hw).
      replace (access_ok w (offset + bytes value)) with true; [done |].
      symmetry. apply access_ok_true. rewrite Hb, Hz. unfold NULL.
      split; [done | lia]. }
    split; [done |].
    intros d ds Hd Hds. split.
    + unfold of_wire_buffer_octets_data_get, OF_OCTETS_BYTES_GET,
        OF_OCTETS_POINTER_GET.
      rewrite (bind_Done _ _ _ _ _ Hc).
      rewrite (bind_Done _ _ _ _ _ (index_at _ _ _ _ offset Hw Hb)).
      rewrite Hd, Hz. simpl. unfold buf_octets_get.
      rewrite (bind_Done _ _ m (d, 0) m) by done.
      rewrite (bind_Done _ _ m [] m) by (eapply load_nothing; [done | lia ..]).
      eapply store_nothing; [done | lia ..].
    + unfold of_wire_buffer_octets_data_set, OF_OCTETS_BYTES_GET,
        OF_OCTETS_POINTER_GET.
      rewrite Hz. rewrite (bind_Done _ _ m () m) by done.
      rewrite Hz in Hc. rewrite (bind_Done _ _ _ _ _ Hc).
      rewrite (bind_Done _ _ _ _ _ (index_at _ _ _ _ offset Hw Hb)).
      rewrite Hd. simpl. unfold buf_octets_set.
      rewrite (bind_Done _ _ m (d, 0) m) by done.
      rewrite (bind_Done _ _ m [] m) by (eapply load_nothing; [done | lia ..]).
      eapply store_nothing; [done | lia ..].
Qed.

Lemma zero_length_run_needs_positive_extent_witness :
  bytes no_octets = 0 ∧
  of_wire_buffer_octets_data_get (Some 11%positive) 0 no_octets demo_mem
    = Abort demo_mem ∧
  of_wire_buffer_octets_data_set (Some 11%positive) 0 no_octets 0 demo_mem
    = Abort demo_mem ∧
  of_wire_buffer_octets_data_get (Some 11%positive) 3 no_octets demo_mem
    = Done () demo_mem.
Proof.
  assert (Hz : bytes no_octets = 0) by reflexivity.
  destruct (zero_length_run_needs_positive_extent demo_mem no_octets 0 Hz)
    as [Hat0 Habove].
  destruct (Hat0 (Some 11%positive)) as (_ & Hg & Hs).
  { right. exists 11%positive, demo_wbuf. by split. }
  destruct (Habove 11%positive demo_wbuf 10%positive demo_block 3) as [_ Hrun].
  { reflexivity. }
  { split_and!; [reflexivity | reflexivity | simpl; lia]. }
  { lia. }
  { simpl; lia. }
  destruct (Hrun 10%positive demo_block eq_refl eq_refl) as [Hg3 _].
  split_and!; done.
Defined.

(** ** Field assignments *)

Ltac step H := rewrite (bind_Done _ _ _ _ _ H).

Lemma put_wbuf_at m p w : wbuf_at (put_wbuf m p w) p w.
Proof. unfold wbuf_at, put_wbuf. simpl. apply lookup_insert_eq. Qed.

Lemma put_wbuf_put_wbuf m p w w' :
  put_wbuf (put_wbuf m p w) p w' = put_wbuf m p w'.
Proof. unfold put_wbuf, with_heap. simpl. by rewrite insert_insert_eq. Qed.

Lemma put_wbuf_same m p w : wbuf_at m p w → put_wbuf m p w = m.
Proof.
  intros Hw. unfold put_wbuf. rewrite insert_id by done. apply with_heap_id.
Qed.

Lemma set_buf_at m p w v :
  wbuf_at m p w → set_buf (Some p) v m = Done () (put_wbuf m p (with_buf w v)).
Proof.
  intros Hw. unfold set_buf. step (load_wbuf_Some _ _ _ Hw).
  by apply (store_wbuf_Some m p w).
Qed.

Lemma set_alloc_bytes_at m p w v :
  wbuf_at m p w →
  set_alloc_bytes (Some p) v m = Done () (put_wbuf m p (with_alloc w v)).
Proof.
  intros Hw. unfold set_alloc_bytes. step (load_wbuf_Some _ _ _ Hw).
  by apply (store_wbuf_Some m p w).
Qed.

Lemma set_current_bytes_at m p w v :
  wbuf_at m p w →
  set_current_bytes (Some p) v m = Done () (put_wbuf m p (with_current w v)).
Proof.
  intros Hw. unfold set_current_bytes. step (load_wbuf_Some _ _ _ Hw).
  by apply (store_wbuf_Some m p w).
Qed.

Lemma set_free_at m p w v :
  wbuf_at m p w → set_free (Some p) v m = Done () (put_wbuf m p (with_free w v)).
Proof.
  intros Hw. unfold set_free. step (load_wbuf_Some _ _ _ Hw).
  by apply (store_wbuf_Some m p w).
Qed.

(** ** Growth *)

Lemma with_current_same w : with_current w (current_bytes w) = w.
Proof. by destruct w. Qed.

Lemma grow_Done m p w t :
  wbuf_at m p w → t ≤ alloc_bytes w →
  of_wire_buffer_grow (Some p) t m = Done () (grown m p w t).
Proof.
  intros Hw Ht. unfold of_wire_buffer_grow, grown. simpl.
  rewrite (bind_Done _ _ m () m) by done.
  step (load_wbuf_Some _ _ _ Hw).
  rewrite (bind_Done _ _ m () m).
  2:{ unfold LOCI_ASSERT. by rewrite (proj2 (Z.leb_le _ _) Ht). }
  destruct (current_bytes w <? t) eqn:Hlt.
  - apply Z.ltb_lt in Hlt. rewrite Z.max_r by lia.
    by apply set_current_bytes_at.
  - apply Z.ltb_ge in Hlt. rewrite Z.max_l by lia.
    by rewrite with_current_same, put_wbuf_same.
Qed.

Lemma grow_Abort m p w t :
  wbuf_at m p w → alloc_bytes w < t →
  of_wire_buffer_grow (Some p) t m = Abort m.
Proof.
  intros Hw Ht. unfold of_wire_buffer_grow. simpl.
  rewrite (bind_Done _ _ m () m) by done.
  step (load_wbuf_Some _ _ _ Hw).
  apply bind_Abort. unfold LOCI_ASSERT.
  by rewrite (proj2 (Z.leb_gt _ _) Ht).
Qed.

Lemma grow_null t m : of_wire_buffer_grow NULL t m = Abort m.
Proof. reflexivity. Qed.

Lemma grown_grown m p w t1 t2 :
  t2 ≤ t1 →
  grown (grown m p w t1) p (with_current w (Z.max (current_bytes w) t1)) t2
  = grown m p w t1.
Proof.
  intros Ht. unfold grown. rewrite put_wbuf_put_wbuf. simpl.
  f_equal. unfold with_current. simpl. f_equal. lia.
Qed.

(** C7, amended. Growth never decreases the used extent: for targets
    [t2 < t1 ≤ capacity], grow to [t1] and then to [t2] leaves the used extent
    at the larger of its old value and [t1] (so at [t1] when it was not
    already beyond), and a single grow to [t ≤ capacity] leaves it at the
    larger of its old value and [t]; a target beyond the capacity stops at
    the assertion with the memory unchanged. *)
Theorem grow_is_monotonic m p w t1 t2 :
  wbuf_at m p w → t2 < t1 → t1 ≤ alloc_bytes w →
  (of_wire_buffer_grow (Some p) t1;; of_wire_buffer_grow (Some p) t2) m
    = Done () (grown m p w t1) ∧
  (∃ w', wbuf_at (grown m p w t1) p w' ∧
         current_bytes w' = Z.max (current_bytes w) t1 ∧
         (current_bytes w ≤ t1 → current_bytes w' = t1) ∧
         alloc_bytes w' = alloc_bytes w ∧ buf w' = buf w) ∧
  (∀ t, t ≤ alloc_bytes w →
     of_wire_buffer_grow (Some p) t m = Done () (grown m p w t) ∧
     ∃ w', wbuf_at (grown m p w t) p w' ∧
           current_bytes w' = Z.max (current_bytes w) t) ∧
  (∀ t, alloc_bytes w < t → of_wire_buffer_grow (Some p) t m = Abort m).
Proof.
  intros Hw Ht Hcap. split_and!.
  - step (grow_Done _ _ _ _ Hw Hcap).
    rewrite (grow_Done _ p (with_current w (Z.max (current_bytes w) t1)) t2).
    + f_equal. apply grown_grown. lia.
    + apply put_wbuf_at.
    + simpl. lia.
  - eexists. split; [apply put_wbuf_at |]. simpl. split_and!; try done. lia.
  - intros t Hle. split; [by apply grow_Done |].
    eexists. split; [apply put_wbuf_at | done].
  - intros t Hgt. by apply (grow_Abort m p w).
Qed.

Lemma grow_is_monotonic_witness :
  wbuf_at half_mem 11%positive half_wbuf ∧ 5 < 6 ∧ 6 ≤ alloc_bytes half_wbuf ∧
  (of_wire_buffer_grow (Some 11%positive) 6;;
   of_wire_buffer_grow (Some 11%positive) 5) half_mem
    = Done () (grown half_mem 11%positive half_wbuf 6).
Proof.
  assert (Hw : wbuf_at half_mem 11%positive half_wbuf) by reflexivity.
  assert (Ht : 5 < 6) by lia.
  assert (Hc : 6 ≤ alloc_bytes half_wbuf) by (simpl; lia).
  refine (conj Hw (conj Ht (conj Hc _))).
  exact (proj1 (grow_is_monotonic half_mem 11%positive half_wbuf 6 5 Hw Ht Hc)).
Defined.

(** C7 as stated fails: with the used extent at 4 of 8, grow to 2 and then
    to 1 does not leave the used extent at 2. *)
Lemma grow_below_used_extent :
  1 < 2 ∧ 2 ≤ alloc_bytes half_wbuf ∧
  ¬ ∃ m' w', (of_wire_buffer_grow (Some 11%positive) 2;;
              of_wire_buffer_grow (Some 11%positive) 1) half_mem = Done () m' ∧
             wbuf_at m' 11%positive w' ∧ current_bytes w' = 2.
Proof.
  split_and!; [lia | simpl; lia |].
  intros (m' & w' & Hrun & Hw' & Hcur).
  vm_compute in Hrun. injection Hrun as <-.
  vm_compute in Hw'. injection Hw' as <-.
  discriminate Hcur.
Qed.

(** ** Construction and destruction *)

Section ConstructorFacts.
Context `{Allocator}.

Lemma MALLOC_wbuf_granted m p :
  malloc_pick (heap m) sizeof_of_wire_buffer_t = Some p →
  MALLOC_wbuf m = Done (Some p) (put_wbuf m p uninit_wbuf).
Proof. intros E. unfold MALLOC_wbuf. by rewrite E. Qed.

Lemma MALLOC_wbuf_refused m :
  malloc_pick (heap m) sizeof_of_wire_buffer_t = None →
  MALLOC_wbuf m = Done NULL m.
Proof. intros E. unfold MALLOC_wbuf. by rewrite E. Qed.

(** What binding does: one allocation, for the structure. *)
Lemma new_bind_run buf0 n f m :
  of_wire_buffer_new_bind buf0 n f m
  = match malloc_pick (heap m) sizeof_of_wire_buffer_t with
    | Some p => Done (Some p)
                  (put_wbuf m p {| buf := buf0; alloc_bytes := n;
                                   current_bytes := n; free := f |})
    | None => Done NULL m
    end.
Proof.
  unfold of_wire_buffer_new_bind.
  destruct (malloc_pick (heap m) sizeof_of_wire_buffer_t) as [p |] eqn:E.
  - step (MALLOC_wbuf_granted _ _ E). simpl.
    step (set_buf_at _ p _ buf0 (put_wbuf_at m p uninit_wbuf)).
    rewrite put_wbuf_put_wbuf.
    step (set_free_at _ p _ f (put_wbuf_at m p (with_buf uninit_wbuf buf0))).
    rewrite put_wbuf_put_wbuf.
    step (set_current_bytes_at _ p _ n
            (put_wbuf_at m p (with_free (with_buf uninit_wbuf buf0) f))).
    rewrite put_wbuf_put_wbuf.
    step (set_alloc_bytes_at _ p _ n
            (put_wbuf_at m p
               (with_current (with_free (with_buf uninit_wbuf buf0) f) n))).
    by rewrite put_wbuf_put_wbuf.
  - by step (MALLOC_wbuf_refused _ E).
Qed.

Lemma new_size_max a_bytes :
  new_size a_bytes = Z.max a_bytes OF_WIRE_BUFFER_MIN_ALLOC_BYTES.
Proof.
  unfold new_size. destruct (a_bytes <? _) eqn:E.
  - apply Z.ltb_lt in E. lia.
  - apply Z.ltb_ge in E. lia.
Qed.

Lemma new_size_pos a_bytes : 0 < new_size a_bytes.
Proof. rewrite new_size_max. unfold OF_WIRE_BUFFER_MIN_ALLOC_BYTES. lia. Qed.

Lemma zeroing_whole_block bs n :
  length bs = n → splice_bytes bs 0 (replicate n 0) = replicate n 0.
Proof.
  intros Hlen. unfold splice_bytes. simpl.
  rewrite length_replicate, drop_ge by lia. apply app_nil_r.
Qed.

(** What allocation does: the structure, then the storage; when the storage
    is refused the structure is given back and the memory is as before. *)
Lemma new_run a_bytes m :
  of_wire_buffer_new a_bytes m
  = match malloc_pick (heap m) sizeof_of_wire_buffer_t with
    | Some p =>
        match malloc_pick (<[p := WBuf zero_wbuf]> (heap m)) (new_size a_bytes) with
        | Some b =>
            Done (Some p)
              (with_heap m
                 (<[p := WBuf {| buf := Some b; alloc_bytes := new_size a_bytes;
                                 current_bytes := 0; free := None |}]>
                    (<[b := Bytes (replicate (Z.to_nat (new_size a_bytes)) 0)]>
                       (heap m))))
        | None => Done NULL m
        end
    | None => Done NULL m
    end.
Proof.
  unfold of_wire_buffer_new. fold (new_size a_bytes).
  pose proof (new_size_pos a_bytes) as Hpos.
  destruct (malloc_pick (heap m) sizeof_of_wire_buffer_t) as [p |] eqn:Ep;
    [| by step (MALLOC_wbuf_refused _ Ep)].
  pose proof (malloc_pick_fresh _ _ _ Ep) as Hp.
  step (MALLOC_wbuf_granted _ _ Ep). simpl.
  rewrite (bind_Done _ _ _ () (put_wbuf m p zero_wbuf)).
  2:{ unfold MEMSET_wbuf.
      rewrite (store_wbuf_Some _ p uninit_wbuf) by apply put_wbuf_at.
      fold (put_wbuf (put_wbuf m p uninit_wbuf) p zero_wbuf).
      by rewrite put_wbuf_put_wbuf. }
  set (m1 := put_wbuf m p zero_wbuf).
  change (<[p := WBuf zero_wbuf]> (heap m)) with (heap m1).
  destruct (malloc_pick (heap m1) (new_size a_bytes)) as [b |] eqn:Eb.
  - pose proof (malloc_pick_fresh _ _ _ Eb) as Hb.
    assert (Hne : p ≠ b).
    { intros ->. unfold m1 in Hb. simpl in Hb.
      by rewrite lookup_insert_eq in Hb. }
    set (junk := uninit_bytes (Z.to_nat (new_size a_bytes))).
    set (m2 := with_heap m1 (<[b := Bytes junk]> (heap m1))).
    rewrite (bind_Done _ _ m1 (Some b) m2).
    2:{ unfold MALLOC. rewrite (proj2 (Z.ltb_ge _ _)) by lia. by rewrite Eb. }
    assert (Hw2 : wbuf_at m2 p zero_wbuf).
    { unfold wbuf_at, m2, m1. simpl.
      by rewrite lookup_insert_ne, lookup_insert_eq. }
    step (set_buf_at _ _ _ (Some b) Hw2).
    set (m3 := put_wbuf m2 p (with_buf zero_wbuf (Some b))).
    assert (Hb3 : heap m3 !! b = Some (Bytes junk)).
    { unfold m3, m2. simpl.
      by rewrite lookup_insert_ne, lookup_insert_eq. }
    set (zeros := replicate (Z.to_nat (new_size a_bytes)) 0).
    set (m4 := with_heap m3 (<[b := Bytes zeros]> (heap m3))).
    rewrite (bind_Done _ _ m3 () m4).
    2:{ unfold MEMSET. change (Z.land 0 255) with 0. fold zeros.
        rewrite (store_bytes_Some _ _ _ _ _ Hb3).
        - unfold m4, zeros, junk.
          by rewrite zeroing_whole_block by apply uninit_bytes_length.
        - lia.
        - unfold zeros, junk. rewrite length_replicate, uninit_bytes_length. lia. }
    assert (Hw4 : wbuf_at m4 p (with_buf zero_wbuf (Some b))).
    { unfold wbuf_at, m4, m3. simpl.
      by rewrite lookup_insert_ne, lookup_insert_eq. }
    step (set_current_bytes_at _ _ _ 0 Hw4).
    step (set_alloc_bytes_at _ p _ (new_size a_bytes)
            (put_wbuf_at m4 p (with_current (with_buf zero_wbuf (Some b)) 0))).
    rewrite put_wbuf_put_wbuf.
    unfold mret, M_ret. f_equal.
    unfold put_wbuf, m4, m3, m2, m1, put_wbuf, with_heap. simpl. f_equal.
    apply map_eq. intros i.
    destruct (decide (i = p)) as [-> | Hip]; [by rewrite !lookup_insert_eq |].
    rewrite !(lookup_insert_ne _ p) by done.
    destruct (decide (i = b)) as [-> | Hib]; [by rewrite !lookup_insert_eq |].
    rewrite !(lookup_insert_ne _ b) by done.
    by rewrite !lookup_insert_ne by done.
  - rewrite (bind_Done _ _ m1 NULL m1).
    2:{ unfold MALLOC. rewrite (proj2 (Z.ltb_ge _ _)) by lia. by rewrite Eb. }
    step (set_buf_at _ p _ NULL (put_wbuf_at m p zero_wbuf)).
    unfold m1. rewrite put_wbuf_put_wbuf. unfold NULL.
    rewrite (bind_Done _ _ _ () m); [done |].
    unfold FREE, put_wbuf. simpl. rewrite lookup_insert_eq.
    rewrite delete_insert_id by done.
    f_equal. by destruct m.
Qed.

End ConstructorFacts.

Section ConstructorClaims.
Context `{Allocator}.

(** C8. A successful [of_wire_buffer_new(a_bytes)] returns a buffer whose
    capacity is the larger of [a_bytes] and the floor of 128 bytes, whose
    used extent is 0, and whose whole storage, a fresh block of that many
    bytes, is zero. *)
Theorem new_is_zeroed_with_floor a_bytes m p m' :
  of_wire_buffer_new a_bytes m = Done (Some p) m' →
  ∃ w b,
    wbuf_at m' p w ∧
    alloc_bytes w = Z.max a_bytes OF_WIRE_BUFFER_MIN_ALLOC_BYTES ∧
    OF_WIRE_BUFFER_MIN_ALLOC_BYTES = 128 ∧
    current_bytes w = 0 ∧
    buf w = Some b ∧ heap m !! b = None ∧ b ≠ p ∧
    heap m' !! b = Some (Bytes (replicate (Z.to_nat (alloc_bytes w)) 0)).
Proof.
  rewrite new_run.
  destruct (malloc_pick (heap m) _) as [p' |] eqn:Ep; [| done].
  destruct (malloc_pick (<[p' := _]> (heap m)) _) as [b |] eqn:Eb; [| done].
  intros [= -> <-].
  pose proof (malloc_pick_fresh _ _ _ Eb) as Hb.
  assert (Hne : b ≠ p) by (intros ->; by rewrite lookup_insert_eq in Hb).
  rewrite lookup_insert_ne in Hb by done.
  eexists _, b. split_and!.
  - unfold wbuf_at. simpl. apply lookup_insert_eq.
  - simpl. apply new_size_max.
  - done.
  - done.
  - done.
  - done.
  - done.
  - simpl. by rewrite lookup_insert_ne, lookup_insert_eq.
Qed.


End ConstructorClaims.

Lemma new_is_zeroed_with_floor_witness :
  ∃ m', @of_wire_buffer_new granting 4 caller_mem = Done (Some 11%positive) m' ∧
  ∃ w b, wbuf_at m' 11%positive w ∧ alloc_bytes w = 128 ∧ current_bytes w = 0 ∧
         buf w = Some b ∧
         heap m' !! b = Some (Bytes (replicate (Z.to_nat (alloc_bytes w)) 0)).
Proof.
  eexists. split; [vm_compute; reflexivity |].
  edestruct (@new_is_zeroed_with_floor granting 4 caller_mem 11%positive)
    as (w & b & Hw & Ha & _ & Hc & Hb & _ & _ & Hz).
  { vm_compute. reflexivity. }
  exists w, b. split_and!; done.
Defined.



(** ** Relocation *)

(** Towards the front ([new_offset ≤ start_offset]): the bytes copied are the
    [start_offset - new_offset] bytes found at [start_offset], the used extent
    is not touched, and the allocated length is what shrinks. *)
Lemma move_end_backward m p w b bs start_offset new_offset :
  wbuf_at m p w → buf w = Some b → heap m !! b = Some (Bytes bs) →
  0 ≤ new_offset → new_offset ≤ start_offset →
  start_offset + (start_offset - new_offset) ≤ Z.of_nat (length bs) →
  of_wire_buffer_move_end (Some p) start_offset new_offset m
  = Done ()
      (put_wbuf
         (with_heap m
            (<[b := Bytes (splice_bytes bs new_offset
                             (take (Z.to_nat (start_offset - new_offset))
                                (drop (Z.to_nat start_offset) bs)))]> (heap m)))
         p (with_alloc w (alloc_bytes w - (start_offset - new_offset)))).
Proof.
  intros Hw Hb Hbs Hnew Hle Hlen. unfold of_wire_buffer_move_end.
  rewrite (proj2 (Z.ltb_ge _ _) Hle).
  set (gap := start_offset - new_offset).
  rewrite (bind_Done _ _ m (gap, alloc_bytes w - gap) m)
    by (by step (load_wbuf_Some _ _ _ Hw)).
  step (index_at _ _ _ _ new_offset Hw Hb).
  step (index_at _ _ _ _ start_offset Hw Hb).
  set (moved := take (Z.to_nat gap) (drop (Z.to_nat start_offset) bs)).
  assert (Hmoved : length moved = Z.to_nat gap).
  { unfold moved. rewrite length_take, length_drop. lia. }
  set (m' := with_heap m (<[b := Bytes (splice_bytes bs new_offset moved)]> (heap m))).
  rewrite (bind_Done _ _ m () m').
  2:{ unfold MEMMOVE.
      rewrite (bind_Done _ _ m moved m)
        by (apply load_bytes_Some; [done | lia ..]).
      apply store_bytes_Some; [done | done | lia]. }
  apply set_alloc_bytes_at.
  unfold wbuf_at, m'. simpl. rewrite lookup_insert_ne; [done |].
  intros ->. unfold wbuf_at in Hw. congruence.
Qed.

(** Towards the back ([new_offset > start_offset]): the check asks for the
    used extent to reach beyond the allocated length, which no buffer with
    [current_bytes ≤ alloc_bytes] grants. *)
Lemma move_end_forward m p w start_offset new_offset :
  wbuf_at m p w → current_bytes w ≤ alloc_bytes w →
  start_offset < new_offset →
  of_wire_buffer_move_end (Some p) start_offset new_offset m = Abort m.
Proof.
  intros Hw Hinv Hlt. unfold of_wire_buffer_move_end.
  rewrite (proj2 (Z.ltb_lt _ _) Hlt).
  apply bind_Abort. step (load_wbuf_Some _ _ _ Hw).
  apply bind_Abort. rewrite (access_check_at _ _ _ _ Hw).
  replace (access_ok w _) with false; [done |].
  symmetry. apply access_ok_false. right. right. lia.
Qed.

(** C1, on the code. On a buffer of eight used bytes, relocating the suffix
    that starts at offset 4 to offset 2 copies two bytes only, so that the
    four bytes at offset 2 are not the four that were at offset 4, and leaves
    the used extent at 8 instead of 8 + (2 - 4); it is the allocated length
    that becomes 6. On a buffer with four of eight bytes used, relocating the
    suffix at offset 2 to offset 4, which fits the capacity, stops at the
    bounds check. *)
Theorem move_end_at_demo_buffer :
  (∃ m' bs' w',
     of_wire_buffer_move_end (Some 11%positive) 4 2 demo_mem = Done () m' ∧
     heap m' !! 10%positive = Some (Bytes bs') ∧
     wbuf_at m' 11%positive w' ∧
     bs' = [10; 11; 14; 15; 14; 15; 16; 17] ∧
     take 4 (drop 2 bs') ≠ take 4 (drop 4 demo_block) ∧
     current_bytes w' = 8 ∧
     current_bytes w' ≠ current_bytes demo_wbuf + (2 - 4) ∧
     alloc_bytes w' = 6) ∧
  of_wire_buffer_move_end (Some 11%positive) 2 4 half_mem = Abort half_mem.
Proof.
  split.
  - eexists _, _, _. split_and!.
    + apply (move_end_backward demo_mem 11%positive demo_wbuf 10%positive
               demo_block); [done | done | done | lia | lia | simpl; lia].
    + reflexivity.
    + apply put_wbuf_at.
    + reflexivity.
    + discriminate.
    + reflexivity.
    + simpl. lia.
    + reflexivity.
  - apply (move_end_forward half_mem 11%positive half_wbuf);
      [done | simpl; lia | lia].
Qed.

(** ** The state invariant *)

Section InvariantFacts.
Context `{Allocator}.

Lemma new_inv a_bytes m p m' :
  of_wire_buffer_new a_bytes m = Done (Some p) m' →
  ∃ w, wbuf_at m' p w ∧ wbuf_inv w.
Proof.
  rewrite new_run.
  destruct (malloc_pick (heap m) _) as [p' |]; [| done].
  destruct (malloc_pick (<[p' := _]> (heap m)) _) as [b |]; [| done].
  intros [= -> <-]. eexists. split; [apply lookup_insert_eq |].
  unfold wbuf_inv. simpl. pose proof (new_size_pos a_bytes). lia.
Qed.

Lemma new_bind_inv buf0 n f m p m' :
  0 ≤ n →
  of_wire_buffer_new_bind buf0 n f m = Done (Some p) m' →
  ∃ w, wbuf_at m' p w ∧ wbuf_inv w.
Proof.
  intros Hn. rewrite new_bind_run.
  destruct (malloc_pick (heap m) _) as [p' |]; [| done].
  intros [= -> <-]. eexists. split; [apply put_wbuf_at |].
  unfold wbuf_inv. simpl. lia.
Qed.

End InvariantFacts.

Lemma grow_inv m p w t m' :
  wbuf_at m p w → wbuf_inv w →
  of_wire_buffer_grow (Some p) t m = Done () m' →
  ∃ w', wbuf_at m' p w' ∧ wbuf_inv w'.
Proof.
  intros Hw Hinv.
  destruct (decide (t ≤ alloc_bytes w)) as [Hle | Hgt].
  - rewrite (grow_Done _ _ _ _ Hw Hle). intros [= <-].
    eexists. split; [apply put_wbuf_at |].
    unfold wbuf_inv in *. simpl. lia.
  - rewrite (grow_Abort _ _ _ _ Hw) by lia. done.
Qed.

(** C5, on the code. Relocation does not keep [0 ≤ current_bytes ≤
    alloc_bytes]: on a buffer with eight of eight bytes used, which satisfies
    it, [of_wire_buffer_move_end] from offset 4 to offset 2 returns with eight
    bytes used of six allocated. *)
Theorem move_end_breaks_invariant :
  wbuf_inv demo_wbuf ∧
  ∃ m' w', of_wire_buffer_move_end (Some 11%positive) 4 2 demo_mem = Done () m' ∧
           wbuf_at m' 11%positive w' ∧
           current_bytes w' = 8 ∧ alloc_bytes w' = 6 ∧ ¬ wbuf_inv w'.
Proof.
  split; [unfold wbuf_inv; simpl; lia |].
  eexists _, _. split_and!.
  - apply (move_end_backward demo_mem 11%positive demo_wbuf 10%positive
             demo_block); [done | done | done | lia | lia | simpl; lia].
  - apply put_wbuf_at.
  - reflexivity.
  - reflexivity.
  - unfold wbuf_inv. simpl. lia.
Qed.

(** * Further properties of the header *)

(** ** Reading ranges of a block *)

Lemma length_slice bs i n :
  0 ≤ i → 0 ≤ n → i + n ≤ Z.of_nat (length bs) →
  length (slice bs i n) = Z.to_nat n.
Proof.
  intros. unfold slice. rewrite length_take, length_drop. lia.
Qed.

Lemma slice_lookup bs i n (k : nat) :
  (k < Z.to_nat n)%nat →
  slice bs i n !! k = bs !! (Z.to_nat i + k)%nat.
Proof.
  intros Hk. unfold slice.
  rewrite lookup_take_lt by done. by rewrite lookup_drop.
Qed.

(** The bytes of a block after a run was written into it. *)
Lemma splice_bytes_inside bs i ds (k : nat) :
  0 ≤ i → i + Z.of_nat (length ds) ≤ Z.of_nat (length bs) →
  (k < length ds)%nat →
  splice_bytes bs i ds !! (Z.to_nat i + k)%nat = ds !! k.
Proof.
  intros Hi Hlen Hk. unfold splice_bytes.
  rewrite lookup_app_r by (rewrite length_take; lia).
  rewrite length_take.
  replace (Z.to_nat i + k - Z.to_nat i `min` length bs)%nat with k by lia.
  by rewrite lookup_app_l.
Qed.

(** A range that does not meet the written run reads as before. *)
Lemma slice_splice_disjoint bs i ds j n :
  0 ≤ i → i + Z.of_nat (length ds) ≤ Z.of_nat (length bs) →
  0 ≤ j → 0 ≤ n →
  j + n ≤ i ∨ i + Z.of_nat (length ds) ≤ j →
  slice (splice_bytes bs i ds) j n = slice bs j n.
Proof.
  intros Hi Hlen Hj Hn Hdis. apply list_eq. intros k.
  destruct (decide (k < Z.to_nat n)%nat) as [Hk | Hk].
  - rewrite !slice_lookup by done.
    destruct Hdis as [Hbefore | Hafter].
    + apply splice_bytes_before; lia.
    + apply splice_bytes_after; lia.
  - unfold slice. rewrite !lookup_take_ge by lia. done.
Qed.

(** The written run reads back. *)
Lemma slice_splice_same bs i ds :
  0 ≤ i → i + Z.of_nat (length ds) ≤ Z.of_nat (length bs) →
  slice (splice_bytes bs i ds) i (Z.of_nat (length ds)) = ds.
Proof.
  intros Hi Hlen. unfold slice. rewrite Nat2Z.id.
  by apply read_splice_bytes.
Qed.

(** Writing twice at one place keeps the second run. *)
Lemma splice_bytes_overwrite bs i ds1 ds2 :
  0 ≤ i → i + Z.of_nat (length ds1) ≤ Z.of_nat (length bs) →
  length ds1 = length ds2 →
  splice_bytes (splice_bytes bs i ds1) i ds2 = splice_bytes bs i ds2.
Proof.
  intros Hi Hlen Heq.
  assert (Hl1 : length (splice_bytes bs i ds1) = length bs)
    by (by apply length_splice_bytes).
  apply list_eq. intros k.
  destruct (decide (k < Z.to_nat i)%nat) as [Hlt | Hge].
  - rewrite !splice_bytes_before by lia. done.
  - destruct (decide (k < Z.to_nat i + length ds2)%nat) as [Hin | Hout].
    + replace k with (Z.to_nat i + (k - Z.to_nat i))%nat by lia.
      rewrite !splice_bytes_inside by lia. done.
    + rewrite !splice_bytes_after by lia. done.
Qed.

(** Writes to ranges that do not meet can be made in either order. *)
Lemma splice_bytes_commute bs i1 ds1 i2 ds2 :
  0 ≤ i1 → i1 + Z.of_nat (length ds1) ≤ Z.of_nat (length bs) →
  0 ≤ i2 → i2 + Z.of_nat (length ds2) ≤ Z.of_nat (length bs) →
  i1 + Z.of_nat (length ds1) ≤ i2 ∨ i2 + Z.of_nat (length ds2) ≤ i1 →
  splice_bytes (splice_bytes bs i1 ds1) i2 ds2
  = splice_bytes (splice_bytes bs i2 ds2) i1 ds1.
Proof.
  intros Hi1 Hl1 Hi2 Hl2 Hdis.
  assert (Hlen1 : length (splice_bytes bs i1 ds1) = length bs)
    by (by apply length_splice_bytes).
  assert (Hlen2 : length (splice_bytes bs i2 ds2) = length bs)
    by (by apply length_splice_bytes).
  apply list_eq. intros k.
  destruct (decide (Z.to_nat i1 ≤ k < Z.to_nat i1 + length ds1)%nat) as [H1 | H1].
  - replace k with (Z.to_nat i1 + (k - Z.to_nat i1))%nat at 2 by lia.
    rewrite (splice_bytes_inside (splice_bytes bs i2 ds2)) by lia.
    destruct (decide (k < Z.to_nat i2)%nat).
    + rewrite splice_bytes_before by lia.
      replace k with (Z.to_nat i1 + (k - Z.to_nat i1))%nat at 1 by lia.
      by rewrite splice_bytes_inside by lia.
    + rewrite splice_bytes_after by lia.
      replace k with (Z.to_nat i1 + (k - Z.to_nat i1))%nat at 1 by lia.
      by rewrite splice_bytes_inside by lia.
  - assert (Hout1 : ∀ l, length l = length bs →
              splice_bytes l i1 ds1 !! k = l !! k).
    { intros l Hl. destruct (decide (k < Z.to_nat i1)%nat).
      - apply splice_bytes_before; lia.
      - apply splice_bytes_after; lia. }
    rewrite (Hout1 (splice_bytes bs i2 ds2)) by done.
    destruct (decide (Z.to_nat i2 ≤ k < Z.to_nat i2 + length ds2)%nat) as [H2 | H2].
    + replace k with (Z.to_nat i2 + (k - Z.to_nat i2))%nat by lia.
      rewrite !splice_bytes_inside by lia. done.
    + assert (Hout2 : ∀ l, length l = length bs →
                splice_bytes l i2 ds2 !! k = l !! k).
      { intros l Hl. destruct (decide (k < Z.to_nat i2)%nat).
        - apply splice_bytes_before; lia.
        - apply splice_bytes_after; lia. }
      rewrite !Hout2 by done. by rewrite Hout1.
Qed.

(** ** What a checked access does, case by case *)

Lemma be_byte_mod v N k :
  0 ≤ k → k + 8 ≤ N →
  Z.land (Z.shiftr (Z.land v (Z.ones N)) k) 255 = Z.land (Z.shiftr v k) 255.
Proof.
  intros Hk HN. apply Z.bits_inj'. intros j Hj.
  change 255 with (Z.ones 8).
  rewrite !Z.land_spec, !Z.shiftr_spec, Z.land_spec by done.
  destruct (decide (j < 8)) as [Hlt | Hge].
  - rewrite (Z.ones_spec_low N) by lia. by rewrite andb_true_r.
  - rewrite (Z.ones_spec_high 8) by lia. by rewrite !andb_false_r.
Qed.

(** Only the low [8 * n] bits of a value are encoded. *)
Lemma be_bytes_land n N v :
  8 * Z.of_nat n ≤ N → be_bytes n (Z.land v (Z.ones N)) = be_bytes n v.
Proof.
  induction n as [| n IH]; intros HN; [done |].
  cbn [be_bytes]. rewrite IH by lia. f_equal.
  apply be_byte_mod; lia.
Qed.

Lemma stored_land m b bs offset n v :
  0 ≤ n →
  stored m b bs offset n (Z.land v (Z.ones (8 * n))) = stored m b bs offset n v.
Proof.
  intros Hn. unfold stored. rewrite be_bytes_land; [done | lia].
Qed.

Lemma checked_get_run m p w b bs offset n :
  wbuf_at m p w → storage_at m w b bs → 0 ≤ offset → 0 < n →
  checked_get n (Some p) offset m
  = if access_ok w (offset + n)
    then Done (be_value (slice bs offset n)) m else Abort m.
Proof.
  intros Hw Hst Hoff Hn. destruct (access_ok w (offset + n)) eqn:Hok.
  - apply access_ok_true in Hok as (_ & _ & Hext).
    by apply (checked_get_Done m p w b bs).
  - unfold checked_get. apply bind_Abort.
    by rewrite (access_check_at _ _ _ _ Hw), Hok.
Qed.

Lemma checked_set_run m p w b bs offset n v :
  wbuf_at m p w → storage_at m w b bs → 0 ≤ offset → 0 < n →
  checked_set n (Some p) offset v m
  = if access_ok w (offset + n)
    then Done () (stored m b bs offset n v) else Abort m.
Proof.
  intros Hw Hst Hoff Hn. destruct (access_ok w (offset + n)) eqn:Hok.
  - apply access_ok_true in Hok as (_ & _ & Hext).
    by apply (checked_set_Done m p w b bs).
  - unfold checked_set. apply bind_Abort.
    by rewrite (access_check_at _ _ _ _ Hw), Hok.
Qed.

Lemma accessor_width_pos a n : accessor_width a = Some n → 0 < n.
Proof.
  destruct a as [s | f version]; simpl.
  - intros [= <-]. apply width_pos.
  - destruct (wire_scalar f version) as [s |]; [| done].
    intros [= <-]. apply width_pos.
Qed.

Lemma accessor_get_checked a n wbuf offset m :
  accessor_width a = Some n →
  accessor_get a wbuf offset m = checked_get n wbuf offset m.
Proof.
  destruct a as [s | f version]; simpl.
  - intros [= <-]. by rewrite scalar_get_checked.
  - destruct (wire_scalar f version) as [s |] eqn:Hs; [| done].
    intros [= <-].
    by rewrite (field_get_wire _ _ _ _ _ _ Hs), scalar_get_checked.
Qed.

Lemma accessor_get_run a n m p w b bs offset :
  accessor_width a = Some n →
  wbuf_at m p w → storage_at m w b bs → 0 ≤ offset →
  accessor_get a (Some p) offset m
  = if access_ok w (offset + n)
    then Done (be_value (slice bs offset n)) m else Abort m.
Proof.
  intros Ha Hw Hst Hoff. rewrite (accessor_get_checked _ _ _ _ _ Ha).
  apply (checked_get_run m p w b bs); try done.
  by apply (accessor_width_pos a).
Qed.

Lemma accessor_set_run a n m p w b bs offset v :
  accessor_width a = Some n →
  wbuf_at m p w → storage_at m w b bs → 0 ≤ offset →
  accessor_set a (Some p) offset v m
  = if access_ok w (offset + n)
    then Done () (stored m b bs offset n v) else Abort m.
Proof.
  intros Ha Hw Hst Hoff. pose proof (accessor_width_pos _ _ Ha) as Hn.
  destruct a as [s | f version]; simpl in *.
  - injection Ha as <-. rewrite scalar_set_checked.
    by apply (checked_set_run m p w b bs).
  - destruct (wire_scalar f version) as [s |] eqn:Hs; [| done].
    injection Ha as <-.
    rewrite (field_set_wire _ _ _ _ _ _ _ Hs), scalar_set_checked.
    rewrite (checked_set_run m p w b bs) by done.
    by rewrite stored_land by lia.
Qed.

Lemma accessor_unrecognized a wbuf offset v m :
  accessor_width a = None →
  accessor_get a wbuf offset m = Abort m ∧
  accessor_set a wbuf offset v m = Abort m.
Proof.
  destruct a as [s | f version]; simpl; [done |].
  unfold wire_scalar. destruct (recognized version) eqn:Hr; simpl.
  - intros Hn. destruct f; simpl in Hn; by case_match.
  - intros _. split.
    + by apply field_get_unrecognized.
    + by apply field_set_unrecognized.
Qed.

(** The memory after a store: structure, storage, other objects. *)
Lemma stored_facts m p w b bs offset n v :
  wbuf_at m p w → storage_at m w b bs →
  0 ≤ offset → 0 ≤ n → offset + n ≤ Z.of_nat (length bs) →
  let bs' := splice_bytes bs offset (be_bytes (Z.to_nat n) v) in
  wbuf_at (stored m b bs offset n v) p w ∧
  storage_at (stored m b bs offset n v) w b bs' ∧
  length bs' = length bs ∧
  (∀ a, a ≠ b → heap (stored m b bs offset n v) !! a = heap m !! a) ∧
  released (stored m b bs offset n v) = released m.
Proof.
  intros Hw Hst Hoff Hn Hext bs'.
  pose proof Hst as (Hb & Hbs & Hlen).
  split_and!.
  - by apply stored_wbuf_at.
  - by apply stored_storage_at.
  - apply length_splice_bytes; [done |]. rewrite length_be_bytes. lia.
  - intros a Ha. unfold stored. simpl. by rewrite lookup_insert_ne.
  - done.
Qed.

Lemma demo_wbuf_at : wbuf_at demo_mem 11%positive demo_wbuf.
Proof. reflexivity. Qed.

Lemma demo_storage_at : storage_at demo_mem demo_wbuf 10%positive demo_block.
Proof. split_and!; [reflexivity | reflexivity | simpl; lia]. Qed.

Lemma access_ok_within w b offset n :
  buf w = Some b → 0 ≤ offset → 0 < n → offset + n ≤ current_bytes w →
  access_ok w (offset + n) = true.
Proof.
  intros Hb Hoff Hn Hext. apply access_ok_true. rewrite Hb. unfold NULL.
  split; [done | lia].
Qed.

(** ** A set writes its own bytes and nothing else *)

(** X1. A set through any accessor, within the used extent, writes the bytes
    of its own range only: the buffer structure (extent, capacity, storage
    pointer, release function) is as before, the storage keeps its length,
    every range of the storage that does not meet the written one reads as
    before, every other object of the memory is untouched, and a get through
    any accessor on a range that does not meet the written one returns what
    it returned before. *)
Theorem accessor_set_touches_only_its_bytes a n m p w b bs offset v :
  accessor_width a = Some n →
  wbuf_at m p w → storage_at m w b bs →
  0 ≤ offset → offset + n ≤ current_bytes w →
  ∃ m' bs',
    accessor_set a (Some p) offset v m = Done () m' ∧
    wbuf_at m' p w ∧ storage_at m' w b bs' ∧ length bs' = length bs ∧
    (∀ j k, 0 ≤ j → 0 ≤ k → j + k ≤ offset ∨ offset + n ≤ j →
       slice bs' j k = slice bs j k) ∧
    (∀ a', a' ≠ b → heap m' !! a' = heap m !! a') ∧
    released m' = released m ∧
    (∀ a2 n2 off2 r,
       accessor_width a2 = Some n2 → 0 ≤ off2 →
       off2 + n2 ≤ offset ∨ offset + n ≤ off2 →
       accessor_get a2 (Some p) off2 m = Done r m →
       accessor_get a2 (Some p) off2 m' = Done r m').
Proof.
  intros Ha Hw Hst Hoff Hext.
  pose proof Hst as (Hb & Hbs & Hlen).
  pose proof (accessor_width_pos _ _ Ha) as Hn.
  destruct (stored_facts m p w b bs offset n v Hw Hst Hoff
              ltac:(lia) ltac:(lia)) as (Hw' & Hst' & Hlen' & Hother & Hrel).
  assert (Hframe : ∀ j k, 0 ≤ j → 0 ≤ k → j + k ≤ offset ∨ offset + n ≤ j →
            slice (splice_bytes bs offset (be_bytes (Z.to_nat n) v)) j k
            = slice bs j k).
  { intros j k Hj Hk Hdis. apply slice_splice_disjoint; try done.
    - rewrite length_be_bytes. lia.
    - rewrite length_be_bytes. lia. }
  eexists _, _. split_and!; try done.
  - rewrite (accessor_set_run a n m p w b bs) by done.
    by rewrite (access_ok_within w b).
  - intros a2 n2 off2 r Ha2 Hoff2 Hdis.
    pose proof (accessor_width_pos _ _ Ha2) as Hn2.
    rewrite (accessor_get_run a2 n2 m p w b bs) by done.
    rewrite (accessor_get_run a2 n2 _ p w b _ _ Ha2 Hw' Hst' Hoff2).
    destruct (access_ok w (off2 + n2)); [| done].
    intros [= <-]. by rewrite Hframe by lia.
Qed.

Lemma accessor_set_touches_only_its_bytes_witness :
  accessor_width (Versioned FmCmd 2) = Some 1 ∧
  4 + 1 ≤ current_bytes demo_wbuf ∧
  ∃ m' bs',
    of_wire_buffer_fm_cmd_set 2 (Some 11%positive) 4 511 demo_mem = Done () m' ∧
    storage_at m' demo_wbuf 10%positive bs' ∧
    slice bs' 5 3 = slice demo_block 5 3.
Proof.
  assert (Ha : accessor_width (Versioned FmCmd 2) = Some 1) by reflexivity.
  assert (Hoff : 0 ≤ 4) by lia.
  assert (Hext : 4 + 1 ≤ current_bytes demo_wbuf) by (simpl; lia).
  destruct (accessor_set_touches_only_its_bytes (Versioned FmCmd 2) 1 demo_mem
              11%positive demo_wbuf 10%positive demo_block 4 511
              Ha demo_wbuf_at demo_storage_at Hoff Hext)
    as (m' & bs' & Hset & _ & Hst & _ & Hframe & _).
  refine (conj Ha (conj Hext _)).
  exists m', bs'. split_and!; [done | done |].
  apply Hframe; lia.
Defined.

(** ** Sets compose *)

Lemma stored_stored m b bs offset1 n1 v1 offset2 n2 v2 :
  stored (stored m b bs offset1 n1 v1) b
    (splice_bytes bs offset1 (be_bytes (Z.to_nat n1) v1)) offset2 n2 v2
  = with_heap m
      (<[b := Bytes (splice_bytes
                       (splice_bytes bs offset1 (be_bytes (Z.to_nat n1) v1))
                       offset2 (be_bytes (Z.to_nat n2) v2))]> (heap m)).
Proof. unfold stored, with_heap. simpl. by rewrite insert_insert_eq. Qed.

Lemma accessor_set_twice a1 n1 a2 n2 m p w b bs offset1 v1 offset2 v2 :
  accessor_width a1 = Some n1 → accessor_width a2 = Some n2 →
  wbuf_at m p w → storage_at m w b bs →
  0 ≤ offset1 → offset1 + n1 ≤ current_bytes w →
  0 ≤ offset2 → offset2 + n2 ≤ current_bytes w →
  (accessor_set a1 (Some p) offset1 v1;; accessor_set a2 (Some p) offset2 v2) m
  = Done ()
      (with_heap m
         (<[b := Bytes (splice_bytes
                          (splice_bytes bs offset1 (be_bytes (Z.to_nat n1) v1))
                          offset2 (be_bytes (Z.to_nat n2) v2))]> (heap m))).
Proof.
  intros Ha1 Ha2 Hw Hst Hoff1 Hext1 Hoff2 Hext2.
  pose proof Hst as (Hb & Hbs & Hlen).
  pose proof (accessor_width_pos _ _ Ha1) as Hn1.
  pose proof (accessor_width_pos _ _ Ha2) as Hn2.
  destruct (stored_facts m p w b bs offset1 n1 v1 Hw Hst Hoff1
              ltac:(lia) ltac:(lia)) as (Hw' & Hst' & _).
  rewrite (bind_Done _ _ m () (stored m b bs offset1 n1 v1)).
  2:{ rewrite (accessor_set_run a1 n1 m p w b bs) by done.
      by rewrite (access_ok_within w b). }
  rewrite (accessor_set_run a2 n2 _ p w b _ _ v2 Ha2 Hw' Hst' Hoff2).
  rewrite (access_ok_within w b) by done.
  by rewrite stored_stored.
Qed.

(** X2. Two sets, through any accessors, on ranges of the used extent that
    do not meet, give the same memory in either order. *)
Theorem disjoint_sets_commute a1 n1 a2 n2 m p w b bs offset1 v1 offset2 v2 :
  accessor_width a1 = Some n1 → accessor_width a2 = Some n2 →
  wbuf_at m p w → storage_at m w b bs →
  0 ≤ offset1 → offset1 + n1 ≤ current_bytes w →
  0 ≤ offset2 → offset2 + n2 ≤ current_bytes w →
  offset1 + n1 ≤ offset2 ∨ offset2 + n2 ≤ offset1 →
  ∃ m',
    (accessor_set a1 (Some p) offset1 v1;;
     accessor_set a2 (Some p) offset2 v2) m = Done () m' ∧
    (accessor_set a2 (Some p) offset2 v2;;
     accessor_set a1 (Some p) offset1 v1) m = Done () m'.
Proof.
  intros Ha1 Ha2 Hw Hst Hoff1 Hext1 Hoff2 Hext2 Hdis.
  pose proof Hst as (Hb & Hbs & Hlen).
  pose proof (accessor_width_pos _ _ Ha1) as Hn1.
  pose proof (accessor_width_pos _ _ Ha2) as Hn2.
  eexists. split.
  - by apply (accessor_set_twice a1 n1 a2 n2 m p w b bs).
  - rewrite (accessor_set_twice a2 n2 a1 n1 m p w b bs) by done.
    rewrite (splice_bytes_commute bs offset1 _ offset2);
      rewrite ?length_be_bytes; [done | lia ..].
Qed.

Lemma disjoint_sets_commute_witness :
  ∃ m',
    (of_wire_buffer_u16_set (Some 11%positive) 0 258;;
     of_wire_buffer_port_no_set 4 (Some 11%positive) 4 7) demo_mem = Done () m' ∧
    (of_wire_buffer_port_no_set 4 (Some 11%positive) 4 7;;
     of_wire_buffer_u16_set (Some 11%positive) 0 258) demo_mem = Done () m'.
Proof.
  apply (disjoint_sets_commute (Fixed U16) 2 (Versioned PortNo 4) 4 demo_mem
           11%positive demo_wbuf 10%positive demo_block 0 258 4 7);
    [reflexivity | reflexivity | exact demo_wbuf_at | exact demo_storage_at
    | lia | simpl; lia | lia | simpl; lia | lia].
Defined.

(** X3. Of two sets through the same accessor at the same offset only the
    second shows: the pair leaves the memory the second alone would leave,
    also when the access is beyond the used extent and both stop at the
    check. *)
Theorem second_set_wins a n m p w b bs offset v1 v2 :
  accessor_width a = Some n →
  wbuf_at m p w → storage_at m w b bs → 0 ≤ offset →
  (accessor_set a (Some p) offset v1;; accessor_set a (Some p) offset v2) m
  = accessor_set a (Some p) offset v2 m.
Proof.
  intros Ha Hw Hst Hoff.
  pose proof Hst as (Hb & Hbs & Hlen).
  pose proof (accessor_width_pos _ _ Ha) as Hn.
  rewrite (accessor_set_run a n m p w b bs offset v2) by done.
  destruct (access_ok w (offset + n)) eqn:Hok.
  - apply access_ok_true in Hok as (_ & _ & Hext).
    rewrite (accessor_set_twice a n a n m p w b bs) by done.
    rewrite splice_bytes_overwrite; rewrite ?length_be_bytes; [done | lia ..].
  - apply bind_Abort.
    rewrite (accessor_set_run a n m p w b bs) by done. by rewrite Hok.
Qed.

Lemma second_set_wins_witness :
  (of_wire_buffer_u32_set (Some 11%positive) 2 1;;
   of_wire_buffer_u32_set (Some 11%positive) 2 2) demo_mem
  = of_wire_buffer_u32_set (Some 11%positive) 2 2 demo_mem.
Proof.
  apply (second_set_wins (Fixed U32) 4 demo_mem 11%positive demo_wbuf
           10%positive demo_block 2 1 2);
    [reflexivity | exact demo_wbuf_at | exact demo_storage_at | lia].
Defined.

(** ** What the check guards, and what it does not *)

(** X4. On a buffer whose storage holds its used extent, no get or set at an
    offset from 0 on performs an undefined access, whatever the accessor,
    version, offset and value: the call returns or stops at an assertion. *)
Theorem checked_access_is_memory_safe a m p w b bs offset v :
  wbuf_at m p w → storage_at m w b bs → 0 ≤ offset →
  faulted (accessor_get a (Some p) offset m) = false ∧
  faulted (accessor_set a (Some p) offset v m) = false.
Proof.
  intros Hw Hst Hoff.
  destruct (accessor_width a) as [n |] eqn:Ha.
  - rewrite (accessor_get_run a n m p w b bs) by done.
    rewrite (accessor_set_run a n m p w b bs) by done.
    by destruct (access_ok w (offset + n)).
  - destruct (accessor_unrecognized a (Some p) offset v m Ha) as [-> ->].
    done.
Qed.

Lemma checked_access_is_memory_safe_witness :
  faulted (of_wire_buffer_u64_get (Some 11%positive) 5 demo_mem) = false ∧
  faulted (of_wire_buffer_u64_set (Some 11%positive) 5 1 demo_mem) = false.
Proof.
  assert (Hoff : 0 ≤ 5) by lia.
  exact (checked_access_is_memory_safe (Fixed U64) demo_mem 11%positive
           demo_wbuf 10%positive demo_block 5 1
           demo_wbuf_at demo_storage_at Hoff).
Defined.

Lemma bind_Fault_load {A B} (c : M A) (f : A → M B) m :
  c m = Fault → (c ≫= f) m = Fault.
Proof. intros E. unfold mbind, M_bind. by rewrite E. Qed.

(** X5. The check has no lower bound on the offset: a scalar access at an
    offset below 0 whose end [offset + width] is above 0 and within the used
    extent passes the check and then reaches before the storage, an
    undefined access. *)
Theorem offset_below_zero_is_not_checked s m p w b bs offset v :
  wbuf_at m p w → storage_at m w b bs →
  offset < 0 → 0 < offset + width s → offset + width s ≤ current_bytes w →
  OF_WIRE_BUFFER_ACCESS_CHECK (Some p) (offset + width s) m = Done () m ∧
  scalar_get s (Some p) offset m = Fault ∧
  scalar_set s (Some p) offset v m = Fault.
Proof.
  intros Hw (Hb & Hbs & Hlen) Hneg Hpos Hext.
  assert (Hc : OF_WIRE_BUFFER_ACCESS_CHECK (Some p) (offset + width s) m
               = Done () m).
  { rewrite (access_check_at _ _ _ _ Hw).
    replace (access_ok w (offset + width s)) with true; [done |].
    symmetry. apply access_ok_true. rewrite Hb. by unfold NULL. }
  assert (Hin : ∀ n, in_block (length bs) offset n = false).
  { intros n. unfold in_block.
    by rewrite (proj2 (Z.leb_gt 0 offset)) by lia. }
  rewrite scalar_get_checked, scalar_set_checked.
  unfold checked_get, checked_set. split_and!; [done | |].
  - step Hc. step (index_at _ _ _ _ offset Hw Hb).
    apply bind_Fault_load. unfold load_bytes. simpl. by rewrite Hbs, Hin.
  - step Hc. step (index_at _ _ _ _ offset Hw Hb).
    unfold buf_set, store_bytes. simpl. by rewrite Hbs, Hin.
Qed.

Lemma offset_below_zero_is_not_checked_witness :
  -1 < 0 ∧ 0 < -1 + width U16 ∧ -1 + width U16 ≤ current_bytes demo_wbuf ∧
  of_wire_buffer_u16_get (Some 11%positive) (-1) demo_mem = Fault ∧
  of_wire_buffer_u16_set (Some 11%positive) (-1) 7 demo_mem = Fault.
Proof.
  assert (Hneg : -1 < 0) by lia.
  assert (Hpos : 0 < -1 + width U16) by (unfold width, sizeof_uint16_t; lia).
  assert (Hext : -1 + width U16 ≤ current_bytes demo_wbuf)
    by (unfold width, sizeof_uint16_t; simpl; lia).
  refine (conj Hneg (conj Hpos (conj Hext _))).
  exact (proj2 (offset_below_zero_is_not_checked U16 demo_mem 11%positive
                  demo_wbuf 10%positive demo_block (-1) 7
                  demo_wbuf_at demo_storage_at Hneg Hpos Hext)).
Defined.

(** ** Gets *)













Lemma be_value_snoc bs x :
  be_value (bs ++ [x]) = Z.lor (Z.shiftl (be_value bs) 8) x.
Proof. unfold be_value. by rewrite fold_left_app. Qed.

(** The value of [k] bytes is below [2 ^ (8 * k)]. *)
Lemma be_value_range bs :
  byte_block bs → 0 ≤ be_value bs < 2 ^ (8 * Z.of_nat (length bs)).
Proof.
  induction bs as [| x bs IH] using rev_ind; intros Hbs.
  - simpl. unfold be_value. simpl. lia.
  - apply Forall_app in Hbs as [Hbs Hx]. apply Forall_inv in Hx.
    specialize (IH Hbs).
    rewrite be_value_snoc. rewrite lor_shiftl_byte by exact Hx.
    rewrite length_app. simpl.
    replace (8 * Z.of_nat (length bs + 1)) with (8 * Z.of_nat (length bs) + 8)
      by lia.
    rewrite Z.pow_add_r by lia. change (2 ^ 8) with 256. nia.
Qed.

Lemma byte_block_slice bs i n : byte_block bs → byte_block (slice bs i n).
Proof. intros Hbs. unfold slice. by apply Forall_take, Forall_drop. Qed.

(** X7. A get that returns gives a value that fits the width the accessor
    has on the wire: with bytes in the storage, the result [r] of an accessor
    of [n] bytes satisfies [0 ≤ r < 2 ^ (8 * n)]; so a version-1 port number
    is below [2 ^ 16] and a flow-mod command of the later versions below
    [2 ^ 8], though their in-memory types are wider. *)
Theorem get_value_fits_wire_width a n m p w b bs offset r m' :
  accessor_width a = Some n →
  wbuf_at m p w → storage_at m w b bs → byte_block bs → 0 ≤ offset →
  accessor_get a (Some p) offset m = Done r m' →
  0 ≤ r < 2 ^ (8 * n).
Proof.
  intros Ha Hw Hst Hbytes Hoff.
  pose proof Hst as (Hb & Hbs & Hlen).
  pose proof (accessor_width_pos _ _ Ha) as Hn.
  rewrite (accessor_get_run a n m p w b bs) by done.
  destruct (access_ok w (offset + n)) eqn:Hok; [| done].
  apply access_ok_true in Hok as (_ & _ & Hext).
  intros [= <- _].
  pose proof (be_value_range (slice bs offset n)
                (byte_block_slice bs offset n Hbytes)) as Hr.
  rewrite length_slice in Hr by lia.
  by rewrite Z2Nat.id in Hr by lia.
Qed.

Lemma demo_block_bytes : byte_block demo_block.
Proof. unfold byte_block, demo_block. repeat constructor; lia. Qed.

Lemma get_value_fits_wire_width_witness :
  of_wire_buffer_fm_cmd_get 3 (Some 11%positive) 2 demo_mem = Done 12 demo_mem ∧
  0 ≤ 12 < 2 ^ (8 * 1).
Proof.
  assert (Hg : of_wire_buffer_fm_cmd_get 3 (Some 11%positive) 2 demo_mem
               = Done 12 demo_mem) by reflexivity.
  assert (Hoff : 0 ≤ 2) by lia.
  split; [done |].
  exact (get_value_fits_wire_width (Versioned FmCmd 3) 1 demo_mem 11%positive
           demo_wbuf 10%positive demo_block 2 12 demo_mem eq_refl
           demo_wbuf_at demo_storage_at demo_block_bytes Hoff Hg).
Defined.

(** ** Byte order *)

Lemma be_bytes_lookup n v (i : nat) :
  (i < n)%nat →
  be_bytes n v !! i = Some ((v / 2 ^ (8 * Z.of_nat (n - 1 - i))) mod 256).
Proof.
  revert i. induction n as [| n IH]; intros i Hi; [lia |].
  cbn [be_bytes]. destruct i as [| i].
  - simpl. rewrite be_byte_div by lia.
    do 4 f_equal. lia.
  - simpl. rewrite IH by lia. do 5 f_equal. lia.
Qed.

Lemma slice_one bs i x :
  0 ≤ i → bs !! Z.to_nat i = Some x → slice bs i 1 = [x].
Proof.
  intros Hi Hx. unfold slice.
  rewrite (drop_S _ _ _ Hx). reflexivity.
Qed.

Lemma be_value_one x : be_value [x] = x.
Proof. unfold be_value. simpl. apply Z.lor_0_l. Qed.

(** X8. A set stores its value most significant byte first: after a set of
    [v] through an accessor of [n] bytes at [offset], the byte at
    [offset + i], read with [of_wire_buffer_u8_get], is
    [(v / 2 ^ (8 * (n - 1 - i))) mod 256], for every [i] below [n]. *)
Theorem set_lays_out_big_endian a n m p w b bs offset v i :
  accessor_width a = Some n →
  wbuf_at m p w → storage_at m w b bs →
  0 ≤ offset → offset + n ≤ current_bytes w →
  0 ≤ i < n →
  ∃ m',
    accessor_set a (Some p) offset v m = Done () m' ∧
    of_wire_buffer_u8_get (Some p) (offset + i) m'
    = Done ((v / 2 ^ (8 * (n - 1 - i))) mod 256) m'.
Proof.
  intros Ha Hw Hst Hoff Hext Hi.
  pose proof Hst as (Hb & Hbs & Hlen).
  destruct (stored_facts m p w b bs offset n v Hw Hst Hoff
              ltac:(lia) ltac:(lia)) as (Hw' & Hst' & _).
  exists (stored m b bs offset n v). split.
  - rewrite (accessor_set_run a n m p w b bs) by done.
    by rewrite (access_ok_within w b) by (done || lia).
  - change of_wire_buffer_u8_get with (checked_get 1).
    rewrite (checked_get_run _ p w b _ (offset + i) 1 Hw' Hst') by lia.
    rewrite (access_ok_within w b) by (done || lia).
    f_equal. rewrite <- be_value_one. f_equal.
    apply slice_one; [lia |].
    replace (Z.to_nat (offset + i)) with (Z.to_nat offset + Z.to_nat i)%nat
      by lia.
    rewrite splice_bytes_inside; try done.
    + rewrite be_bytes_lookup by lia. do 5 f_equal. lia.
    + rewrite length_be_bytes. lia.
    + rewrite length_be_bytes. lia.
Qed.

Lemma set_lays_out_big_endian_witness :
  ∃ m',
    of_wire_buffer_u32_set (Some 11%positive) 4 3735928559 demo_mem = Done () m' ∧
    of_wire_buffer_u8_get (Some 11%positive) (4 + 1) m' = Done 173 m'.
Proof.
  assert (Hoff : 0 ≤ 4) by lia.
  assert (Hext : 4 + 4 ≤ current_bytes demo_wbuf) by (simpl; lia).
  assert (Hi : 0 ≤ 1 < 4) by lia.
  exact (set_lays_out_big_endian (Fixed U32) 4 demo_mem 11%positive demo_wbuf
           10%positive demo_block 4 3735928559 1 eq_refl
           demo_wbuf_at demo_storage_at Hoff Hext Hi).
Defined.

(** ** Byte runs *)

(** X9. A byte run set into the buffer and got back out arrives unchanged:
    after [n > 0] bytes of the caller's block [d] were set at an offset
    within the used extent, getting [n] bytes at that offset into a block
    [e] puts the first [n] bytes of [d] at the front of [e], keeps the rest of
    [e], and leaves the buffer structure alone. Both blocks are other than
    the storage and hold at least [n] bytes; [cur_len] is 0 or [n], as the
    setter asserts. *)
Theorem octets_set_then_get m p w b bs offset d ds e es n cur_len :
  wbuf_at m p w → storage_at m w b bs →
  heap m !! d = Some (Bytes ds) → heap m !! e = Some (Bytes es) →
  d ≠ b → e ≠ b →
  0 ≤ offset → 0 < n → offset + n ≤ current_bytes w →
  n ≤ Z.of_nat (length ds) → n ≤ Z.of_nat (length es) →
  cur_len = 0 ∨ cur_len = n →
  ∃ m1 m2,
    of_wire_buffer_octets_data_set (Some p) offset
      {| data := Some d; bytes := n |} cur_len m = Done () m1 ∧
    of_wire_buffer_octets_data_get (Some p) offset
      {| data := Some e; bytes := n |} m1 = Done () m2 ∧
    heap m2 !! e = Some (Bytes (slice ds 0 n ++ drop (Z.to_nat n) es)) ∧
    heap m2 !! b = Some (Bytes (splice_bytes bs offset (slice ds 0 n))) ∧
    wbuf_at m2 p w.
Proof.
  intros Hw Hst Hd He Hdb Heb Hoff Hn Hext Hds Hes Hcur.
  pose proof Hst as (Hb & Hbs & Hlen).
  assert (Hpb : p ≠ b) by (intros ->; unfold wbuf_at in Hw; congruence).
  assert (Hok : access_ok w (offset + n) = true)
    by (by apply (access_ok_within w b)).
  set (run := slice ds 0 n).
  assert (Hrun : length run = Z.to_nat n) by (apply length_slice; lia).
  set (bs1 := splice_bytes bs offset run).
  set (m1 := with_heap m (<[b := Bytes bs1]> (heap m))).
  assert (Hw1 : wbuf_at m1 p w).
  { unfold wbuf_at, m1. simpl. by rewrite lookup_insert_ne. }
  assert (Hb1 : heap m1 !! b = Some (Bytes bs1)).
  { unfold m1. simpl. by rewrite lookup_insert_eq. }
  assert (He1 : heap m1 !! e = Some (Bytes es)).
  { unfold m1. simpl. by rewrite lookup_insert_ne. }
  assert (Hlen1 : length bs1 = length bs)
    by (apply length_splice_bytes; lia).
  set (m2 := with_heap m1 (<[e := Bytes (splice_bytes es 0 run)]> (heap m1))).
  exists m1, m2. split_and!.
  - unfold of_wire_buffer_octets_data_set, OF_OCTETS_BYTES_GET,
      OF_OCTETS_POINTER_GET. simpl.
    rewrite (bind_Done _ _ m () m).
    2:{ unfold LOCI_ASSERT.
        destruct Hcur as [-> | ->]; [done |].
        by rewrite Z.eqb_refl, orb_true_r. }
    rewrite (bind_Done _ _ m () m)
      by (by rewrite (access_check_at _ _ _ _ Hw), Hok).
    step (index_at _ _ _ _ offset Hw Hb).
    rewrite (bind_Done _ _ m (d, 0) m) by done.
    unfold buf_octets_set.
    rewrite (bind_Done _ _ m run m)
      by (apply load_bytes_Some; [done | lia ..]).
    apply store_bytes_Some; [done | done | lia].
  - unfold of_wire_buffer_octets_data_get, OF_OCTETS_BYTES_GET,
      OF_OCTETS_POINTER_GET. simpl.
    rewrite (bind_Done _ _ m1 () m1)
      by (by rewrite (access_check_at _ _ _ _ Hw1), Hok).
    step (index_at _ _ _ _ offset Hw1 Hb).
    rewrite (bind_Done _ _ m1 (e, 0) m1) by done.
    unfold buf_octets_get.
    rewrite (bind_Done _ _ m1 run m1).
    2:{ rewrite (load_bytes_Some _ _ _ _ _ Hb1) by lia.
        f_equal. fold (slice bs1 offset n).
        replace n with (Z.of_nat (length run)) by lia.
        apply slice_splice_same; lia. }
    apply store_bytes_Some; [done | lia | lia].
  - unfold m2. simpl. rewrite lookup_insert_eq. do 2 f_equal.
    unfold splice_bytes. simpl. by rewrite Hrun.
  - unfold m2. simpl. by rewrite lookup_insert_ne.
  - unfold wbuf_at, m2. simpl. rewrite lookup_insert_ne; [done |].
    intros ->. unfold wbuf_at in Hw1. congruence.
Qed.

Lemma octets_set_then_get_witness :
  ∃ m1 m2,
    of_wire_buffer_octets_data_set (Some 11%positive) 5
      {| data := Some 20%positive; bytes := 3 |} 3 octets_mem = Done () m1 ∧
    of_wire_buffer_octets_data_get (Some 11%positive) 5
      {| data := Some 21%positive; bytes := 3 |} m1 = Done () m2 ∧
    heap m2 !! 21%positive = Some (Bytes [1; 2; 3; 0]).
Proof.
  assert (Hw : wbuf_at octets_mem 11%positive demo_wbuf) by reflexivity.
  assert (Hst : storage_at octets_mem demo_wbuf 10%positive demo_block).
  { split_and!; [reflexivity | reflexivity | simpl; lia]. }
  destruct (octets_set_then_get octets_mem 11%positive demo_wbuf 10%positive
              demo_block 5 20%positive [1; 2; 3] 21%positive [0; 0; 0; 0] 3 3
              Hw Hst eq_refl eq_refl)
    as (m1 & m2 & Hset & Hget & He & _);
    [done | done | lia | lia | simpl; lia | simpl; lia | simpl; lia
    | by right |].
  exists m1, m2. split_and!; done.
Defined.

(** ** 128-bit values *)

(** The memory after both halves of a 128-bit value were stored. *)
Lemma set_128_run m p w b bs offset hi lo :
  wbuf_at m p w → storage_at m w b bs →
  0 ≤ offset → offset + 16 ≤ current_bytes w →
  (of_wire_buffer_u64_set (Some p) offset hi;;
   of_wire_buffer_u64_set (Some p) (offset + 8) lo) m
  = Done ()
      (with_heap m
         (<[b := Bytes (splice_bytes (splice_bytes bs offset (be_bytes 8 hi))
                          (offset + 8) (be_bytes 8 lo))]> (heap m))).
Proof.
  intros Hw Hst Hoff Hext.
  apply (accessor_set_twice (Fixed U64) 8 (Fixed U64) 8 m p w b bs);
    try done; lia.
Qed.

Lemma slice_be_bytes bs offset (k : nat) v :
  0 ≤ offset → offset + Z.of_nat k ≤ Z.of_nat (length bs) →
  slice (splice_bytes bs offset (be_bytes k v)) offset (Z.of_nat k)
  = be_bytes k v.
Proof.
  intros Hoff Hlen.
  pose proof (slice_splice_same bs offset (be_bytes k v)) as H.
  rewrite length_be_bytes in H. by apply H.
Qed.

Lemma get_128_run m p w b bs offset hi lo :
  wbuf_at m p w → storage_at m w b bs →
  0 ≤ offset → offset + 16 ≤ current_bytes w →
  let m' := with_heap m
              (<[b := Bytes (splice_bytes (splice_bytes bs offset (be_bytes 8 hi))
                               (offset + 8) (be_bytes 8 lo))]> (heap m)) in
  of_wire_buffer_u64_get (Some p) offset m' = Done (hi mod 2 ^ 64) m' ∧
  of_wire_buffer_u64_get (Some p) (offset + 8) m' = Done (lo mod 2 ^ 64) m'.
Proof.
  intros Hw Hst Hoff Hext m'.
  pose proof Hst as (Hb & Hbs & Hlen).
  assert (Hpb : p ≠ b) by (intros ->; unfold wbuf_at in Hw; congruence).
  set (bs1 := splice_bytes bs offset (be_bytes 8 hi)).
  set (bs2 := splice_bytes bs1 (offset + 8) (be_bytes 8 lo)).
  assert (Hl1 : length bs1 = length bs)
    by (apply length_splice_bytes; rewrite ?length_be_bytes; lia).
  assert (Hl2 : length bs2 = length bs).
  { unfold bs2. rewrite length_splice_bytes; rewrite ?length_be_bytes; lia. }
  assert (Hw' : wbuf_at m' p w).
  { unfold wbuf_at, m'. simpl. by rewrite lookup_insert_ne. }
  assert (Hst' : storage_at m' w b bs2).
  { split_and!; [done | | lia]. unfold m'. simpl. apply lookup_insert_eq. }
  change of_wire_buffer_u64_get with (checked_get 8).
  split.
  - rewrite (checked_get_run m' p w b bs2) by (done || lia).
    rewrite (access_ok_within w b) by (done || lia).
    f_equal. unfold bs2.
    rewrite slice_splice_disjoint; rewrite ?length_be_bytes; try lia.
    replace (slice bs1 offset 8) with (be_bytes 8 hi)
      by (symmetry; apply (slice_be_bytes bs offset 8 hi); lia).
    by rewrite be_value_be_bytes.
  - rewrite (checked_get_run m' p w b bs2) by (done || lia).
    rewrite (access_ok_within w b) by (done || lia).
    f_equal.
    replace (slice bs2 (offset + 8) 8) with (be_bytes 8 lo)
      by (symmetry; apply (slice_be_bytes bs1 (offset + 8) 8 lo); lia).
    by rewrite be_value_be_bytes.
Qed.

(** X10. A 128-bit bitmap or checksum set with sixteen bytes of used extent
    from the offset on reads back, each half reduced to 64 bits, whatever the
    caller's structure held before; the high half lies first. *)
Theorem set_128_then_get m p w b bs offset hi lo :
  wbuf_at m p w → storage_at m w b bs →
  0 ≤ offset → offset + 16 ≤ current_bytes w →
  (∃ m', of_wire_buffer_bitmap_128_set (Some p) offset (hi, lo) m = Done () m' ∧
         (∀ addr, of_wire_buffer_bitmap_128_get (Some p) offset addr m'
                  = (Done () m', (hi mod 2 ^ 64, lo mod 2 ^ 64))) ∧
         of_wire_buffer_u64_get (Some p) offset m' = Done (hi mod 2 ^ 64) m') ∧
  (∃ m', of_wire_buffer_checksum_128_set (Some p) offset (hi, lo) m = Done () m' ∧
         (∀ addr, of_wire_buffer_checksum_128_get (Some p) offset addr m'
                  = (Done () m', (hi mod 2 ^ 64, lo mod 2 ^ 64)))).
Proof.
  intros Hw Hst Hoff Hext.
  pose proof (set_128_run m p w b bs offset hi lo Hw Hst Hoff Hext) as Hset.
  destruct (get_128_run m p w b bs offset hi lo Hw Hst Hoff Hext)
    as [Hhi Hlo].
  split.
  - eexists. split_and!; [exact Hset | | exact Hhi].
    intros addr. unfold of_wire_buffer_bitmap_128_get. by rewrite Hhi, Hlo.
  - eexists. split; [exact Hset |].
    intros addr. unfold of_wire_buffer_checksum_128_get. by rewrite Hhi, Hlo.
Qed.

Lemma set_128_then_get_witness :
  0 ≤ 0 ∧ 0 + 16 ≤ current_bytes wide_wbuf ∧
  ∃ m', of_wire_buffer_bitmap_128_set (Some 11%positive) 0 (1, 2) wide_mem
          = Done () m' ∧
        of_wire_buffer_bitmap_128_get (Some 11%positive) 0 (0, 0) m'
          = (Done () m', (1 mod 2 ^ 64, 2 mod 2 ^ 64)).
Proof.
  assert (Hw : wbuf_at wide_mem 11%positive wide_wbuf) by reflexivity.
  assert (Hst : storage_at wide_mem wide_wbuf 10%positive wide_block).
  { split_and!; [reflexivity | reflexivity | simpl; lia]. }
  assert (Hoff : 0 ≤ 0) by lia.
  assert (Hext : 0 + 16 ≤ current_bytes wide_wbuf) by (simpl; lia).
  destruct (set_128_then_get wide_mem 11%positive wide_wbuf 10%positive
              wide_block 0 1 2 Hw Hst Hoff Hext)
    as [(m' & Hset & Hget & _) _].
  refine (conj Hoff (conj Hext _)). exists m'. split; [exact Hset |].
  exact (Hget (0, 0)).
Defined.

(** X11. A 128-bit set is two 64-bit sets, each with its own check: when the
    used extent holds the first eight bytes from the offset on but not all
    sixteen, the high half is written and the call then stops at the check
    of the low half, leaving a memory in which the high half can be read
    back. *)
Theorem set_128_can_stop_half_way m p w b bs offset hi lo :
  wbuf_at m p w → storage_at m w b bs →
  0 ≤ offset → offset + 8 ≤ current_bytes w → current_bytes w < offset + 16 →
  of_wire_buffer_bitmap_128_set (Some p) offset (hi, lo) m
    = Abort (stored m b bs offset 8 hi) ∧
  of_wire_buffer_checksum_128_set (Some p) offset (hi, lo) m
    = Abort (stored m b bs offset 8 hi) ∧
  of_wire_buffer_u64_get (Some p) offset (stored m b bs offset 8 hi)
    = Done (hi mod 2 ^ 64) (stored m b bs offset 8 hi).
Proof.
  intros Hw Hst Hoff Hext Hshort.
  pose proof Hst as (Hb & Hbs & Hlen).
  destruct (stored_facts m p w b bs offset 8 hi Hw Hst Hoff
              ltac:(lia) ltac:(lia)) as (Hw' & Hst' & _).
  assert (Hrun : (of_wire_buffer_u64_set (Some p) offset hi;;
                  of_wire_buffer_u64_set (Some p) (offset + 8) lo) m
                 = Abort (stored m b bs offset 8 hi)).
  { change of_wire_buffer_u64_set with (checked_set 8).
    rewrite (bind_Done _ _ m () (stored m b bs offset 8 hi))
      by (apply (checked_set_Done m p w b bs); done || lia).
    rewrite (checked_set_run _ p w b _ (offset + 8) 8 lo Hw' Hst') by lia.
    replace (access_ok w (offset + 8 + 8)) with false; [done |].
    symmetry. apply access_ok_false. right. right. lia. }
  split_and!; [exact Hrun | exact Hrun |].
  change of_wire_buffer_u64_get with (checked_get 8).
  replace (2 ^ 64) with (2 ^ (8 * 8)) by done.
  apply (checked_set_get m p w b bs); done || lia.
Qed.

Lemma set_128_can_stop_half_way_witness :
  0 + 8 ≤ current_bytes demo_wbuf ∧ current_bytes demo_wbuf < 0 + 16 ∧
  of_wire_buffer_bitmap_128_set (Some 11%positive) 0 (1, 2) demo_mem
    = Abort (stored demo_mem 10%positive demo_block 0 8 1).
Proof.
  assert (Hoff : 0 ≤ 0) by lia.
  assert (Hext : 0 + 8 ≤ current_bytes demo_wbuf) by (simpl; lia).
  assert (Hshort : current_bytes demo_wbuf < 0 + 16) by (simpl; lia).
  refine (conj Hext (conj Hshort _)).
  exact (proj1 (set_128_can_stop_half_way demo_mem 11%positive demo_wbuf
                  10%positive demo_block 0 1 2
                  demo_wbuf_at demo_storage_at Hoff Hext Hshort)).
Defined.

(** X21. A 128-bit get is two 64-bit gets, each with its own check and its
    own store into the caller's structure. When the used extent does not
    hold the first eight bytes from the offset on, the call stops at the
    first check and the structure is as before. When it holds the first
    eight bytes but not all sixteen, the call stops at the second check with
    the [hi] field already overwritten by the value read and the [lo] field
    as before. The memory is unchanged in both cases. *)
Theorem get_128_can_stop_half_way m p w b bs offset addr :
  wbuf_at m p w → storage_at m w b bs → 0 ≤ offset →
  (current_bytes w < offset + 8 →
     of_wire_buffer_bitmap_128_get (Some p) offset addr m = (Abort m, addr) ∧
     of_wire_buffer_checksum_128_get (Some p) offset addr m = (Abort m, addr)) ∧
  (offset + 8 ≤ current_bytes w → current_bytes w < offset + 16 →
     of_wire_buffer_bitmap_128_get (Some p) offset addr m
       = (Abort m, (be_value (slice bs offset 8), addr.2)) ∧
     of_wire_buffer_checksum_128_get (Some p) offset addr m
       = (Abort m, (be_value (slice bs offset 8), addr.2))).
Proof.
  intros Hw Hst Hoff.
  pose proof Hst as (Hb & Hbs & Hlen).
  unfold of_wire_buffer_bitmap_128_get, of_wire_buffer_checksum_128_get.
  change of_wire_buffer_u64_get with (checked_get 8).
  split.
  - intros Hshort.
    rewrite (checked_get_run m p w b bs) by (done || lia).
    replace (access_ok w (offset + 8)) with false; [done |].
    symmetry. apply access_ok_false. right. right. lia.
  - intros Hext Hshort.
    rewrite (checked_get_run m p w b bs offset 8) by (done || lia).
    rewrite (access_ok_within w b) by (done || lia).
    rewrite (checked_get_run m p w b bs (offset + 8) 8) by (done || lia).
    replace (access_ok w (offset + 8 + 8)) with false; [done |].
    symmetry. apply access_ok_false. right. right. lia.
Qed.

Lemma get_128_can_stop_half_way_witness :
  0 + 8 ≤ current_bytes demo_wbuf ∧ current_bytes demo_wbuf < 0 + 16 ∧
  of_wire_buffer_bitmap_128_get (Some 11%positive) 0 (1, 2) demo_mem
    = (Abort demo_mem, (be_value (slice demo_block 0 8), 2)).
Proof.
  assert (Hoff : 0 ≤ 0) by lia.
  assert (Hext : 0 + 8 ≤ current_bytes demo_wbuf) by (simpl; lia).
  assert (Hshort : current_bytes demo_wbuf < 0 + 16) by (simpl; lia).
  destruct (get_128_can_stop_half_way demo_mem 11%positive demo_wbuf
              10%positive demo_block 0 (1, 2)
              demo_wbuf_at demo_storage_at Hoff) as [_ Hhalf].
  refine (conj Hext (conj Hshort _)).
  exact (proj1 (Hhalf Hext Hshort)).
Defined.

(** ** The length of a match structure *)

(** X12. [of_match_bytes] applies the length formula to the 16-bit
    big-endian field at [offset + 2]: when the used extent does not reach
    [offset + 4] it stops at the check; otherwise, after a 16-bit set of
    [len] at [offset + 2], it returns the formula's value at [len] reduced to
    16 bits and leaves the memory as it is. *)
Theorem of_match_bytes_reads_length_field (OF_MATCH_BYTES : Z → Z)
    m p w b bs offset len :
  wbuf_at m p w → storage_at m w b bs → 0 ≤ offset →
  (current_bytes w < offset + 4 →
     of_match_bytes OF_MATCH_BYTES (Some p) offset m = Abort m) ∧
  (offset + 4 ≤ current_bytes w →
     of_match_bytes OF_MATCH_BYTES (Some p) offset m
       = Done (OF_MATCH_BYTES (be_value (slice bs (offset + 2) 2))) m ∧
     ∃ m', of_wire_buffer_u16_set (Some p) (offset + 2) len m = Done () m' ∧
           of_match_bytes OF_MATCH_BYTES (Some p) offset m'
           = Done (OF_MATCH_BYTES (len mod 2 ^ 16)) m').
Proof.
  intros Hw Hst Hoff.
  pose proof Hst as (Hb & Hbs & Hlen).
  unfold of_match_bytes.
  change of_wire_buffer_u16_get with (checked_get 2).
  change of_wire_buffer_u16_set with (checked_set 2).
  split.
  - intros Hshort. apply bind_Abort.
    rewrite (checked_get_run m p w b bs) by (done || lia).
    replace (access_ok w (offset + 2 + 2)) with false; [done |].
    symmetry. apply access_ok_false. right. right. lia.
  - intros Hext. split.
    + rewrite (bind_Done _ _ m (be_value (slice bs (offset + 2) 2)) m); [done |].
      rewrite (checked_get_run m p w b bs) by (done || lia).
      by rewrite (access_ok_within w b) by (done || lia).
    + exists (stored m b bs (offset + 2) 2 len). split.
      * apply (checked_set_Done m p w b bs); done || lia.
      * rewrite (bind_Done _ _ _ (len mod 2 ^ 16)
                   (stored m b bs (offset + 2) 2 len)); [done |].
        replace (2 ^ 16) with (2 ^ (8 * 2)) by done.
        apply (checked_set_get m p w b bs); done || lia.
Qed.

Lemma of_match_bytes_reads_length_field_witness :
  0 ≤ 2 ∧ 2 + 4 ≤ current_bytes demo_wbuf ∧
  of_match_bytes (λ len, (len + 7) / 8 * 8) (Some 11%positive) 2 demo_mem
    = Done (((be_value (slice demo_block (2 + 2) 2)) + 7) / 8 * 8) demo_mem.
Proof.
  assert (Hoff : 0 ≤ 2) by lia.
  assert (Hext : 2 + 4 ≤ current_bytes demo_wbuf) by (simpl; lia).
  destruct (of_match_bytes_reads_length_field (λ len, (len + 7) / 8 * 8)
              demo_mem 11%positive demo_wbuf 10%positive demo_block 2 0
              demo_wbuf_at demo_storage_at Hoff) as [_ Hin].
  refine (conj Hoff (conj Hext _)).
  exact (proj1 (Hin Hext)).
Defined.

(** ** Life cycle *)

(** X13. Stealing hands the storage over: on a live buffer
    [of_wire_buffer_steal] returns the storage pointer and releases the
    structure, and nothing else happens: the storage block and every other
    object are as before, still allocated, and the release function, if the
    buffer has one, is not called. *)
Theorem steal_hands_over_storage m p w :
  wbuf_at m p w →
  ∃ m', of_wire_buffer_steal (Some p) m = Done (buf w) m' ∧
        heap m' !! p = None ∧
        (∀ a, a ≠ p → heap m' !! a = heap m !! a) ∧
        released m' = released m.
Proof.
  intros Hw. exists (with_heap m (delete p (heap m))). split_and!.
  - unfold of_wire_buffer_steal.
    step (load_wbuf_Some _ _ _ Hw).
    step (set_buf_at _ _ _ NULL Hw).
    rewrite (bind_Done _ _ _ () (with_heap m (delete p (heap m)))); [done |].
    unfold of_wire_buffer_free. simpl.
    step (load_wbuf_Some _ _ _ (put_wbuf_at m p (with_buf w NULL))). simpl.
    rewrite (bind_Done _ _ _ () (put_wbuf m p (with_buf w NULL))) by done.
    unfold FREE, put_wbuf. simpl. rewrite lookup_insert_eq.
    by rewrite delete_insert_eq.
  - simpl. apply lookup_delete_eq.
  - intros a Ha. simpl. by rewrite lookup_delete_ne.
  - done.
Qed.

Lemma steal_hands_over_storage_witness :
  ∃ m', of_wire_buffer_steal (Some 11%positive) demo_mem
          = Done (Some 10%positive) m' ∧
        heap m' !! 10%positive = Some (Bytes demo_block) ∧
        heap m' !! 11%positive = None.
Proof.
  destruct (steal_hands_over_storage demo_mem 11%positive demo_wbuf
              demo_wbuf_at) as (m' & Hrun & Hp & Hother & _).
  exists m'. split_and!; [done | | done].
  by rewrite Hother.
Defined.

(** X14. Destroying a buffer leaves its handle dangling: when
    [of_wire_buffer_free] returns, the structure is no longer allocated, and
    a second [of_wire_buffer_free], a grow, or a scalar access through the
    same handle is an undefined access. Destruction is not idempotent. *)
Theorem free_leaves_handle_dangling m p m' :
  of_wire_buffer_free (Some p) m = Done () m' →
  heap m' !! p = None ∧
  of_wire_buffer_free (Some p) m' = Fault ∧
  (∀ t, of_wire_buffer_grow (Some p) t m' = Fault) ∧
  (∀ s offset v, scalar_get s (Some p) offset m' = Fault ∧
                 scalar_set s (Some p) offset v m' = Fault).
Proof.
  intros Hfree.
  assert (Hp : heap m' !! p = None).
  { revert Hfree. unfold of_wire_buffer_free, load_wbuf, FREE, call_free,
      mbind, M_bind, mret, M_ret. simpl.
    destruct (heap m !! p) as [[bs | w] |] eqn:Ep; [done | | done].
    destruct (buf w) as [b |]; simpl.
    - destruct (free w) as [f |]; simpl.
      + rewrite Ep. intros [= <-]. simpl. apply lookup_delete_eq.
      + destruct (heap m !! b); [| done]. simpl.
        destruct (delete b (heap m) !! p); [| done].
        intros [= <-]. simpl. apply lookup_delete_eq.
    - rewrite Ep. intros [= <-]. simpl. apply lookup_delete_eq. }
  assert (Hload : ∀ B (k : of_wire_buffer_t → M B),
            (load_wbuf (Some p) ≫= k) m' = Fault).
  { intros B k. unfold mbind, M_bind, load_wbuf. by rewrite Hp. }
  split_and!; [done | | |].
  - unfold of_wire_buffer_free. simpl. apply Hload.
  - intros t. unfold of_wire_buffer_grow. simpl.
    rewrite (bind_Done _ _ m' () m') by done. apply Hload.
  - intros s offset v.
    rewrite scalar_get_checked, scalar_set_checked.
    unfold checked_get, checked_set, OF_WIRE_BUFFER_ACCESS_CHECK. simpl.
    split; apply bind_Fault_load; apply Hload.
Qed.

Lemma free_leaves_handle_dangling_witness :
  ∃ m', of_wire_buffer_free (Some 11%positive) demo_mem = Done () m' ∧
        of_wire_buffer_free (Some 11%positive) m' = Fault.
Proof.
  eexists. split; [vm_compute; reflexivity |].
  refine (proj1 (proj2 (free_leaves_handle_dangling demo_mem 11%positive _ _))).
  vm_compute. reflexivity.
Defined.

Lemma checked_access_abort n m p w offset v :
  wbuf_at m p w → access_ok w (offset + n) = false →
  checked_get n (Some p) offset m = Abort m ∧
  checked_set n (Some p) offset v m = Abort m.
Proof.
  intros Hw Hok.
  assert (Hc : OF_WIRE_BUFFER_ACCESS_CHECK (Some p) (offset + n) m = Abort m)
    by (by rewrite (access_check_at _ _ _ _ Hw), Hok).
  unfold checked_get, checked_set. split; by apply bind_Abort.
Qed.

Lemma failed_check_abort a n wbuf offset v m :
  accessor_width a = Some n →
  OF_WIRE_BUFFER_ACCESS_CHECK wbuf (offset + n) m = Abort m →
  accessor_set a wbuf offset v m = Abort m.
Proof.
  intros Ha Hc. destruct a as [s | f version]; simpl in *.
  - injection Ha as <-. rewrite scalar_set_checked.
    unfold checked_set. by apply bind_Abort.
  - destruct (wire_scalar f version) as [s |] eqn:Hs; [| done].
    injection Ha as <-.
    rewrite (field_set_wire _ _ _ _ _ _ _ Hs), scalar_set_checked.
    unfold checked_set. by apply bind_Abort.
Qed.

Lemma be_value_zeros k : be_value (replicate k 0) = 0.
Proof.
  unfold be_value. induction k as [| k IH]; [done |]. simpl. exact IH.
Qed.

Lemma slice_replicate N (x : Z) i n :
  0 ≤ i → 0 ≤ n → i + n ≤ Z.of_nat N →
  slice (replicate N x) i n = replicate (Z.to_nat n) x.
Proof.
  intros Hi Hn Hlen. unfold slice.
  rewrite drop_replicate, take_replicate. f_equal. lia.
Qed.

Section LifeCycle.
Context `{Allocator}.

(** The buffer [of_wire_buffer_new] leaves behind a non-null handle. *)
Lemma new_result a_bytes m p m' :
  of_wire_buffer_new a_bytes m = Done (Some p) m' →
  ∃ b, let w := {| buf := Some b; alloc_bytes := new_size a_bytes;
                   current_bytes := 0; free := None |} in
       let zeros := replicate (Z.to_nat (new_size a_bytes)) 0 in
       m' = with_heap m (<[p := WBuf w]> (<[b := Bytes zeros]> (heap m))) ∧
       heap m !! p = None ∧ heap m !! b = None ∧ p ≠ b ∧
       wbuf_at m' p w ∧ heap m' !! b = Some (Bytes zeros).
Proof.
  rewrite new_run.
  destruct (malloc_pick (heap m) _) as [p' |] eqn:Ep; [| done].
  destruct (malloc_pick (<[p' := _]> (heap m)) _) as [b |] eqn:Eb; [| done].
  intros [= -> <-]. exists b. simpl.
  pose proof (malloc_pick_fresh _ _ _ Ep) as Hp.
  pose proof (malloc_pick_fresh _ _ _ Eb) as Hb.
  assert (Hne : p ≠ b) by (intros ->; by rewrite lookup_insert_eq in Hb).
  rewrite lookup_insert_ne in Hb by done.
  split_and!; try done.
  - apply lookup_insert_eq.
  - by rewrite lookup_insert_ne, lookup_insert_eq.
Qed.

(** X15. Allocation followed by destruction gives the memory back: after a
    successful [of_wire_buffer_new], [of_wire_buffer_free] on the returned
    handle releases the storage and the structure and leaves the memory
    exactly as it was before the allocation. *)
Theorem new_then_free_restores_memory a_bytes m p m' :
  of_wire_buffer_new a_bytes m = Done (Some p) m' →
  of_wire_buffer_free (Some p) m' = Done () m.
Proof.
  intros Hnew.
  destruct (new_result _ _ _ _ Hnew) as (b & -> & Hp & Hb & Hne & Hw & Hz).
  unfold of_wire_buffer_free. simpl.
  step (load_wbuf_Some _ _ _ Hw). simpl.
  set (h := <[p := _]> (<[b := _]> (heap m))) in *.
  rewrite (bind_Done _ _ _ () (with_heap m (delete b h))).
  2:{ unfold FREE. simpl in *. by rewrite Hz. }
  unfold FREE. simpl.
  assert (Hlook : delete b h !! p = Some (WBuf
            {| buf := Some b; alloc_bytes := new_size a_bytes;
               current_bytes := 0; free := None |})).
  { unfold h. rewrite lookup_delete_ne by done. apply lookup_insert_eq. }
  rewrite Hlook.
  assert (Hh : delete p (delete b h) = heap m).
  { apply map_eq. intros i. unfold h.
    destruct (decide (i = p)) as [-> | Hip]; [by rewrite lookup_delete_eq |].
    rewrite lookup_delete_ne by done.
    destruct (decide (i = b)) as [-> | Hib]; [by rewrite lookup_delete_eq |].
    rewrite lookup_delete_ne by done.
    by rewrite !lookup_insert_ne by done. }
  unfold with_heap. simpl. rewrite Hh. by destruct m.
Qed.

(** X16. The constructors always return, and a failed one leaks nothing:
    [of_wire_buffer_new] and [of_wire_buffer_new_bind] never stop at an
    assertion and make no undefined access, and when the handle they return
    is [NULL] the memory is exactly as before, also when only the second
    allocation of [of_wire_buffer_new] was refused. *)
Theorem failed_construction_leaks_nothing a_bytes buf0 n f m :
  (∃ r m', of_wire_buffer_new a_bytes m = Done r m' ∧ (r = NULL → m' = m)) ∧
  (∃ r m', of_wire_buffer_new_bind buf0 n f m = Done r m' ∧
           (r = NULL → m' = m)).
Proof.
  split.
  - rewrite new_run.
    destruct (malloc_pick (heap m) _) as [p |]; [| by eexists _, _].
    destruct (malloc_pick (<[p := _]> (heap m)) _) as [b |];
      by eexists _, _.
  - rewrite new_bind_run.
    destruct (malloc_pick (heap m) _) as [p |]; by eexists _, _.
Qed.

(** X17. A fresh buffer is empty: right after [of_wire_buffer_new], whatever
    size was asked for, every get and set through any accessor and every
    byte-run get and set, at any offset, stops at an assertion with the
    memory unchanged; nothing can be accessed before the buffer is grown. *)
Theorem fresh_buffer_is_empty a_bytes m p m' a offset v value cur_len :
  of_wire_buffer_new a_bytes m = Done (Some p) m' →
  accessor_get a (Some p) offset m' = Abort m' ∧
  accessor_set a (Some p) offset v m' = Abort m' ∧
  of_wire_buffer_octets_data_get (Some p) offset value m' = Abort m' ∧
  of_wire_buffer_octets_data_set (Some p) offset value cur_len m' = Abort m'.
Proof.
  intros Hnew.
  destruct (new_result _ _ _ _ Hnew) as (b & _ & _ & _ & _ & Hw & _).
  set (w := {| buf := Some b; alloc_bytes := new_size a_bytes;
               current_bytes := 0; free := None |}) in *.
  assert (Hok : ∀ extent, access_ok w extent = false).
  { intros extent. apply access_ok_false. simpl. lia. }
  assert (Hc : ∀ extent,
            OF_WIRE_BUFFER_ACCESS_CHECK (Some p) extent m' = Abort m')
    by (intros extent; by rewrite (access_check_at _ _ _ _ Hw), Hok).
  assert (Hacc : accessor_get a (Some p) offset m' = Abort m' ∧
                 accessor_set a (Some p) offset v m' = Abort m').
  { destruct (accessor_width a) as [n |] eqn:Ha.
    - split.
      + rewrite (accessor_get_checked _ _ _ _ _ Ha).
        by apply (checked_access_abort n m' p w offset 0).
      + apply (failed_check_abort a n); [done |]. apply Hc.
    - by apply accessor_unrecognized. }
  destruct Hacc as [Hg Hs]. split_and!; [done | done | |].
  - unfold of_wire_buffer_octets_data_get. by apply bind_Abort.
  - unfold of_wire_buffer_octets_data_set.
    destruct ((cur_len =? 0) || (cur_len =? bytes value)).
    + rewrite (bind_Done _ _ m' () m') by done. by apply bind_Abort.
    + by apply bind_Abort.
Qed.

End LifeCycle.

Section LifeCycleReads.
Context `{Allocator}.

(** X18. A fresh buffer reads as zero once grown: after a successful
    [of_wire_buffer_new(a_bytes)] and a grow to [t] within the capacity
    [max(a_bytes, 128)], a get through any accessor on a range of the first
    [t] bytes returns 0. *)
Theorem grown_fresh_buffer_reads_zero a_bytes m p m1 t a n offset :
  of_wire_buffer_new a_bytes m = Done (Some p) m1 →
  t ≤ Z.max a_bytes OF_WIRE_BUFFER_MIN_ALLOC_BYTES →
  accessor_width a = Some n →
  0 ≤ offset → offset + n ≤ t →
  ∃ m2, of_wire_buffer_grow (Some p) t m1 = Done () m2 ∧
        accessor_get a (Some p) offset m2 = Done 0 m2.
Proof.
  intros Hnew Ht Ha Hoff Hext.
  destruct (new_result _ _ _ _ Hnew) as (b & _ & _ & _ & Hne & Hw & Hz).
  pose proof (accessor_width_pos _ _ Ha) as Hn.
  pose proof (new_size_pos a_bytes) as Hpos.
  rewrite <- new_size_max in Ht.
  set (w := {| buf := Some b; alloc_bytes := new_size a_bytes;
               current_bytes := 0; free := None |}) in *.
  set (zeros := replicate (Z.to_nat (new_size a_bytes)) 0) in *.
  exists (grown m1 p w t). split; [by apply grow_Done |].
  set (w' := with_current w (Z.max (current_bytes w) t)).
  assert (Hw' : wbuf_at (grown m1 p w t) p w') by apply put_wbuf_at.
  assert (Hst' : storage_at (grown m1 p w t) w' b zeros).
  { split_and!; [done | |].
    - unfold grown, put_wbuf. simpl. by rewrite lookup_insert_ne.
    - unfold zeros. rewrite length_replicate. simpl. lia. }
  rewrite (accessor_get_run a n _ p w' b zeros offset Ha Hw' Hst' Hoff).
  rewrite (access_ok_within w' b) by (done || simpl; lia).
  f_equal. unfold zeros. rewrite slice_replicate by lia.
  apply be_value_zeros.
Qed.

(** X19. A bound buffer is full and reads the caller's region: after binding
    a block of [length bs] bytes with that size, the used extent is the whole
    region, a get through any accessor on a range of the region returns the
    big-endian value of the bytes there, and [of_wire_buffer_u8_get] at the
    index of a byte returns that byte. *)
Theorem bound_buffer_reads_the_region m b bs f p m1 :
  heap m !! b = Some (Bytes bs) →
  of_wire_buffer_new_bind (Some b) (Z.of_nat (length bs)) f m
    = Done (Some p) m1 →
  (∃ w, wbuf_at m1 p w ∧ current_bytes w = Z.of_nat (length bs) ∧
        alloc_bytes w = Z.of_nat (length bs)) ∧
  (∀ a n offset,
     accessor_width a = Some n →
     0 ≤ offset → offset + n ≤ Z.of_nat (length bs) →
     accessor_get a (Some p) offset m1
     = Done (be_value (slice bs offset n)) m1) ∧
  (∀ (k : nat) x,
     bs !! k = Some x →
     of_wire_buffer_u8_get (Some p) (Z.of_nat k) m1 = Done x m1).
Proof.
  intros Hb. rewrite new_bind_run.
  destruct (malloc_pick (heap m) _) as [p' |] eqn:Ep; [| done].
  intros [= -> <-].
  pose proof (malloc_pick_fresh _ _ _ Ep) as Hp.
  assert (Hne : p ≠ b) by (intros ->; congruence).
  set (w := {| buf := Some b; alloc_bytes := Z.of_nat (length bs);
               current_bytes := Z.of_nat (length bs); free := f |}).
  assert (Hw : wbuf_at (put_wbuf m p w) p w) by apply put_wbuf_at.
  assert (Hst : storage_at (put_wbuf m p w) w b bs).
  { split_and!; [done | | simpl; lia]. simpl. by rewrite lookup_insert_ne. }
  assert (Hget : ∀ a n offset,
            accessor_width a = Some n →
            0 ≤ offset → offset + n ≤ Z.of_nat (length bs) →
            accessor_get a (Some p) offset (put_wbuf m p w)
            = Done (be_value (slice bs offset n)) (put_wbuf m p w)).
  { intros a n offset Ha Hoff Hext.
    pose proof (accessor_width_pos _ _ Ha) as Hn.
    rewrite (accessor_get_run a n _ p w b bs offset Ha Hw Hst Hoff).
    by rewrite (access_ok_within w b). }
  split_and!.
  - by exists w.
  - exact Hget.
  - intros k x Hk.
    pose proof (lookup_lt_Some _ _ _ Hk) as Hlt.
    change of_wire_buffer_u8_get with (accessor_get (Fixed U8)).
    rewrite (Hget (Fixed U8) 1 (Z.of_nat k)); [| done | lia | lia].
    f_equal. rewrite <- (be_value_one x). f_equal.
    apply slice_one; [lia |]. by rewrite Nat2Z.id.
Qed.

End LifeCycleReads.

Lemma new_300_runs :
  ∃ m', @of_wire_buffer_new granting 300 caller_mem = Done (Some 11%positive) m'.
Proof. eexists. vm_compute. reflexivity. Qed.

Lemma new_4_runs :
  ∃ m', @of_wire_buffer_new granting 4 caller_mem = Done (Some 11%positive) m'.
Proof. eexists. vm_compute. reflexivity. Qed.

Lemma bind_demo_runs :
  ∃ m', @of_wire_buffer_new_bind granting (Some 10%positive)
          (Z.of_nat (length demo_block)) None caller_mem
        = Done (Some 11%positive) m'.
Proof. eexists. vm_compute. reflexivity. Qed.

Lemma new_then_free_restores_memory_witness :
  ∃ m', @of_wire_buffer_new granting 300 caller_mem = Done (Some 11%positive) m' ∧
        of_wire_buffer_free (Some 11%positive) m' = Done () caller_mem.
Proof.
  destruct new_300_runs as [m' Hnew]. exists m'. split; [exact Hnew |].
  exact (@new_then_free_restores_memory granting 300 caller_mem 11%positive
           m' Hnew).
Defined.

Lemma fresh_buffer_is_empty_witness :
  ∃ m', @of_wire_buffer_new granting 300 caller_mem = Done (Some 11%positive) m' ∧
        of_wire_buffer_u8_get (Some 11%positive) 0 m' = Abort m'.
Proof.
  destruct new_300_runs as [m' Hnew]. exists m'. split; [exact Hnew |].
  exact (proj1 (@fresh_buffer_is_empty granting 300 caller_mem 11%positive m'
                  (Fixed U8) 0 0 no_octets 0 Hnew)).
Defined.

Lemma grown_fresh_buffer_reads_zero_witness :
  ∃ m1 m2,
    @of_wire_buffer_new granting 4 caller_mem = Done (Some 11%positive) m1 ∧
    of_wire_buffer_grow (Some 11%positive) 100 m1 = Done () m2 ∧
    of_wire_buffer_wc_bmap_get 4 (Some 11%positive) 92 m2 = Done 0 m2.
Proof.
  assert (Ht : 100 ≤ Z.max 4 OF_WIRE_BUFFER_MIN_ALLOC_BYTES)
    by (unfold OF_WIRE_BUFFER_MIN_ALLOC_BYTES; lia).
  assert (Hoff : 0 ≤ 92) by lia.
  assert (Hext : 92 + 8 ≤ 100) by lia.
  destruct new_4_runs as [m1 Hnew].
  destruct (@grown_fresh_buffer_reads_zero granting 4 caller_mem 11%positive
              m1 100 (Versioned WcBmap 4) 8 92 Hnew Ht eq_refl Hoff Hext)
    as (m2 & Hgrow & Hget).
  exists m1, m2. split_and!; [exact Hnew | exact Hgrow | exact Hget].
Defined.

Lemma bound_buffer_reads_the_region_witness :
  heap caller_mem !! 10%positive = Some (Bytes demo_block) ∧
  ∃ m1, @of_wire_buffer_new_bind granting (Some 10%positive)
          (Z.of_nat (length demo_block)) None caller_mem
          = Done (Some 11%positive) m1 ∧
        of_wire_buffer_u8_get (Some 11%positive) (Z.of_nat 3) m1 = Done 13 m1.
Proof.
  assert (Hb : heap caller_mem !! 10%positive = Some (Bytes demo_block))
    by reflexivity.
  destruct bind_demo_runs as [m1 Hbind].
  split; [done |]. exists m1. split; [exact Hbind |].
  exact (proj2 (proj2 (@bound_buffer_reads_the_region granting caller_mem
                         10%positive demo_block None 11%positive m1 Hb Hbind))
           3%nat 13 eq_refl).
Defined.

(** ** Relocation, in general *)

Lemma with_alloc_same w : with_alloc w (alloc_bytes w - 0) = w.
Proof. destruct w. unfold with_alloc. simpl. f_equal. lia. Qed.

(** X20. What [of_wire_buffer_move_end] does on a buffer with
    [current_bytes ≤ alloc_bytes]. Towards the end ([new_offset] above
    [start_offset]) it stops at the bounds check with the memory unchanged.
    Towards the front, with [gap = start_offset - new_offset] and the [gap]
    bytes at [start_offset] inside the block, it returns: those [gap] bytes
    now also lie at [new_offset], every range of the storage that does not
    meet [[new_offset, start_offset)] reads as before, the used extent is
    unchanged and the allocated length is less by [gap]. With equal offsets
    it changes nothing. *)
Theorem move_end_effect m p w b bs start_offset new_offset :
  wbuf_at m p w → buf w = Some b → heap m !! b = Some (Bytes bs) →
  current_bytes w ≤ alloc_bytes w →
  (start_offset < new_offset →
     of_wire_buffer_move_end (Some p) start_offset new_offset m = Abort m) ∧
  (0 ≤ new_offset → new_offset ≤ start_offset →
   start_offset + (start_offset - new_offset) ≤ Z.of_nat (length bs) →
     ∃ m' bs',
       of_wire_buffer_move_end (Some p) start_offset new_offset m = Done () m' ∧
       heap m' !! b = Some (Bytes bs') ∧ length bs' = length bs ∧
       slice bs' new_offset (start_offset - new_offset)
         = slice bs start_offset (start_offset - new_offset) ∧
       (∀ j k, 0 ≤ j → 0 ≤ k → j + k ≤ new_offset ∨ start_offset ≤ j →
          slice bs' j k = slice bs j k) ∧
       wbuf_at m' p (with_alloc w (alloc_bytes w - (start_offset - new_offset))) ∧
       (new_offset = start_offset → m' = m)).
Proof.
  intros Hw Hb Hbs Hinv. split.
  - intros Hlt. by apply (move_end_forward m p w).
  - intros Hnew Hle Hlen.
    set (gap := start_offset - new_offset).
    set (moved := slice bs start_offset gap).
    assert (Hmoved : length moved = Z.to_nat gap)
      by (apply length_slice; lia).
    assert (Hpb : p ≠ b) by (intros ->; unfold wbuf_at in Hw; congruence).
    eexists _, (splice_bytes bs new_offset moved). split_and!.
    + by apply (move_end_backward m p w b bs).
    + unfold put_wbuf. simpl. by rewrite lookup_insert_ne, lookup_insert_eq.
    + apply length_splice_bytes; lia.
    + replace gap with (Z.of_nat (length moved)) at 1 by lia.
      apply slice_splice_same; lia.
    + intros j k Hj Hk Hdis. apply slice_splice_disjoint; lia.
    + apply put_wbuf_at.
    + intros ->. unfold gap, moved, slice.
      rewrite Z.sub_diag. simpl.
      rewrite splice_bytes_nil, with_alloc_same.
      rewrite (insert_id (heap m) b) by done. rewrite with_heap_id.
      by apply put_wbuf_same.
Qed.

Lemma move_end_effect_witness :
  current_bytes demo_wbuf ≤ alloc_bytes demo_wbuf ∧
  of_wire_buffer_move_end (Some 11%positive) 3 5 demo_mem = Abort demo_mem ∧
  of_wire_buffer_move_end (Some 11%positive) 3 3 demo_mem = Done () demo_mem.
Proof.
  assert (Hinv : current_bytes demo_wbuf ≤ alloc_bytes demo_wbuf)
    by (simpl; lia).
  destruct (move_end_effect demo_mem 11%positive demo_wbuf 10%positive
              demo_block 3 5 demo_wbuf_at eq_refl eq_refl Hinv) as [Hfwd _].
  destruct (move_end_effect demo_mem 11%positive demo_wbuf 10%positive
              demo_block 3 3 demo_wbuf_at eq_refl eq_refl Hinv) as [_ Hbwd].
  destruct Hbwd as (m' & bs' & Hrun & _ & _ & _ & _ & _ & Hsame);
    [lia | lia | simpl; lia |].
  rewrite (Hsame eq_refl) in Hrun.
  refine (conj Hinv (conj (Hfwd _) Hrun)). lia.
Defined.
